(** * Order book maintenance: a shallow embedding of [orderbook_maintenance.py]

    The Python program keeps, per traded symbol, a bid side and an ask side,
    each a sorted list of prices together with a dictionary from price to
    aggregated quantity.  This file embeds [SideBook], [OrderBook] and
    [OrderBookEngine] and proves the properties stated for them.

    Numeric model.  Python's [float] prices and quantities are modelled by
    exact canonical rationals [Qc]: equality on [Qc] is Leibniz equality, so
    a price can be a dictionary key, and the arithmetic the program performs
    ([+], [-], [*], unary minus, [min], comparisons) is exact.  Rounding,
    infinities and NaN are outside this model. *)

From Stdlib Require Import QArith Qcanon Lqa.
From stdpp Require Import gmap strings list fin_maps sorting.

Local Open Scope Qc_scope.

(** ** Numbers *)

(** The literal [1e-15] used by the crossing loop. *)
Definition tolerance : Qc := Q2Qc (1 # 1000000000000000).

(** A decimal literal [n / d]. *)
Definition dec (n : Z) (d : positive) : Qc := Q2Qc (n # d).

(** The comparisons of the program, as booleans. *)
Definition leb (a b : Qc) : bool := bool_decide (a ≤ b).
Definition ltb (a b : Qc) : bool := bool_decide (a < b).

(** Python's [min(a, b)]: the first argument unless the second is smaller. *)
Definition py_min (a b : Qc) : Qc := if ltb b a then b else a.

(** ** Python list primitives used by the program *)

(** [bisect.bisect_left(a, x)]: the loop of the standard library,
    [lo, hi = 0, len(a); while lo < hi: mid = (lo+hi)//2;
     if a[mid] < x: lo = mid+1 else: hi = mid].  The interval halves at
    every turn, so [length a] turns are more than enough. *)
Fixpoint bisect_left_loop (fuel : nat) (a : list Qc) (x : Qc) (lo hi : nat) : nat :=
  match fuel with
  | O => lo
  | S fuel' =>
      if decide (lo < hi)%nat then
        let mid := ((lo + hi) / 2)%nat in
        match a !! mid with
        | Some y => if ltb y x then bisect_left_loop fuel' a x (S mid) hi
                    else bisect_left_loop fuel' a x lo mid
        | None => lo
        end
      else lo
  end.

Definition bisect_left (a : list Qc) (x : Qc) : nat :=
  bisect_left_loop (S (length a)) a x 0 (length a).

(** [bisect.bisect_right(a, x)]: same loop with the test [x < a[mid]]
    deciding to go left. *)
Fixpoint bisect_right_loop (fuel : nat) (a : list Qc) (x : Qc) (lo hi : nat) : nat :=
  match fuel with
  | O => lo
  | S fuel' =>
      if decide (lo < hi)%nat then
        let mid := ((lo + hi) / 2)%nat in
        match a !! mid with
        | Some y => if ltb x y then bisect_right_loop fuel' a x lo mid
                    else bisect_right_loop fuel' a x (S mid) hi
        | None => lo
        end
      else lo
  end.

Definition bisect_right (a : list Qc) (x : Qc) : nat :=
  bisect_right_loop (S (length a)) a x 0 (length a).

(** [a.index(x)]: position of the first element equal to [x]
    ([None] stands for Python's [ValueError]). *)
Fixpoint list_index (x : Qc) (a : list Qc) : option nat :=
  match a with
  | [] => None
  | y :: a' => if decide (y = x) then Some O else S <$> list_index x a'
  end.

(** [a.insert(i, x)]: [x] lands before position [i], or at the end when
    [i] is past the end. *)
Definition list_insert_at (i : nat) (x : Qc) (a : list Qc) : list Qc :=
  take i a ++ x :: drop i a.

(** ** Exceptions and stateful computations

    A method call either returns, raises, or (for the model of a [while]
    loop) runs out of fuel; in every case it leaves a state behind, because
    Python keeps the mutations made before an exception. *)

Inductive exn := ValueError | KeyError.

Inductive outcome (A : Type) :=
  | Return (a : A)
  | Raise (e : exn)
  | OutOfFuel.
Arguments Return {A} a.
Arguments Raise {A} e.
Arguments OutOfFuel {A}.

Definition M (S A : Type) : Type := S → outcome A * S.

Definition ret {S A} (a : A) : M S A := λ s, (Return a, s).
Definition raise {S A} (e : exn) : M S A := λ s, (Raise e, s).
Definition bind {S A B} (m : M S A) (k : A → M S B) : M S B := λ s,
  match m s with
  | (Return a, s') => k a s'
  | (Raise e, s') => (Raise e, s')
  | (OutOfFuel, s') => (OutOfFuel, s')
  end.
(** A computation that only reads the state. *)
Definition reads {S A} (f : S → outcome A) : M S A := λ s, (f s, s).

Notation "x <~ m ;; k" := (bind m (λ x, k))
  (at level 100, m at next level, right associativity).
Notation "m ;;; k" := (bind m (λ _, k))
  (at level 100, right associativity).

(** [for x in xs: body(x)] *)
Fixpoint for_each {S A} (body : A → M S unit) (xs : list A) : M S unit :=
  match xs with
  | [] => ret ()
  | x :: xs' => body x ;;; for_each body xs'
  end.

(** ** SideBook *)

Record SideBook := mkSide {
  is_ask : bool;
  prices : list Qc;
  qty : gmap Qc Qc
}.

#[global] Instance SideBook_eq_dec : EqDecision SideBook.
Proof. solve_decision. Defined.

Definition new_side (ask : bool) : SideBook := mkSide ask [] ∅.

(** [SideBook._key_index] *)
Definition _key_index (sb : SideBook) (price : Qc) : nat :=
  if is_ask sb then bisect_left (prices sb) price
  else bisect_left ((λ p, - p) <$> prices sb) (- price).

(** [SideBook.update_level].  [self.prices.index(price)] raises
    [ValueError] before anything has been changed. *)
Definition update_level (price new_qty : Qc) : M SideBook unit := λ sb,
  if leb new_qty 0 then
    match qty sb !! price with
    | Some _ =>
        match list_index price (prices sb) with
        | Some idx =>
            (Return (), mkSide (is_ask sb) (delete idx (prices sb)) (delete price (qty sb)))
        | None => (Raise ValueError, sb)
        end
    | None => (Return (), sb)
    end
  else
    match qty sb !! price with
    | Some _ => (Return (), mkSide (is_ask sb) (prices sb) (<[price := new_qty]> (qty sb)))
    | None =>
        let idx := _key_index sb price in
        (Return (), mkSide (is_ask sb) (list_insert_at idx price (prices sb))
                           (<[price := new_qty]> (qty sb)))
    end.

(** The descending scan of [notional_ahead], with its [break]. *)
Fixpoint scan_desc (q : gmap Qc Qc) (price : Qc) (ps : list Qc) (total : Qc) : Qc :=
  match ps with
  | [] => total
  | p :: ps' =>
      if leb price p then scan_desc q price ps' (total + p * default 0 (q !! p))
      else total
  end.

(** [SideBook.notional_ahead] *)
Definition notional_ahead (sb : SideBook) (price : Qc) : Qc :=
  match prices sb with
  | [] => 0
  | _ =>
      if is_ask sb then
        let idx := (Z.of_nat (bisect_right (prices sb) price) - 1)%Z in
        if (idx <? 0)%Z then 0
        else foldl (λ total p, total + p * default 0 (qty sb !! p)) 0
                   (take (Z.to_nat (idx + 1)) (prices sb))
      else scan_desc (qty sb) price (prices sb) 0
  end.

(** [SideBook.best_n]: [self.qty[p]] raises [KeyError] on a missing key. *)
Fixpoint lookup_all (q : gmap Qc Qc) (ps : list Qc) : outcome (list (Qc * Qc)) :=
  match ps with
  | [] => Return []
  | p :: ps' =>
      match q !! p with
      | None => Raise KeyError
      | Some v =>
          match lookup_all q ps' with
          | Return r => Return ((p, v) :: r)
          | other => other
          end
      end
  end.

Definition best_n (sb : SideBook) (n : nat) : outcome (list (Qc * Qc)) :=
  lookup_all (qty sb) (take n (prices sb)).

(** ** OrderBook *)

Record OrderBook := mkBook {
  bids : SideBook;
  asks : SideBook
}.

#[global] Instance OrderBook_eq_dec : EqDecision OrderBook.
Proof. solve_decision. Defined.

(** [OrderBook.__init__] *)
Definition new_book : OrderBook := mkBook (new_side false) (new_side true).

(** A method call on [self.bids] or on [self.asks]. *)
Definition on_bids {A} (m : M SideBook A) : M OrderBook A := λ b,
  let '(r, s) := m (bids b) in (r, mkBook s (asks b)).
Definition on_asks {A} (m : M SideBook A) : M OrderBook A := λ b,
  let '(r, s) := m (asks b) in (r, mkBook (bids b) s).

(** A batch of levels, and the levels of a side: (price, quantity) pairs. *)
Abbreviation Levels := (list (Qc * Qc)).

(** [OrderBook.apply_diff] *)
Definition apply_diff (bs as_ : Levels) : M OrderBook unit :=
  for_each (λ '(price, q), on_bids (update_level price q)) bs ;;;
  for_each (λ '(price, q), on_asks (update_level price q)) as_.

(** [OrderBook.apply_snapshot] *)
Definition apply_snapshot (bs as_ : Levels) : M OrderBook unit :=
  (λ _, (Return (), new_book)) ;;;
  for_each (λ '(price, q), on_bids (update_level price q)) bs ;;;
  for_each (λ '(price, q), on_asks (update_level price q)) as_.

(** The result of [top10]: the dictionary with keys ["bids"] and ["asks"]. *)
Record TopN := mkTop {
  top_bids : list (Qc * Qc);
  top_asks : list (Qc * Qc)
}.

#[global] Instance TopN_eq_dec : EqDecision TopN.
Proof. solve_decision. Defined.

(** [OrderBook.top10] *)
Definition top10 (b : OrderBook) : outcome TopN :=
  match best_n (bids b) 10 with
  | Return tb =>
      match best_n (asks b) 10 with
      | Return ta => Return (mkTop tb ta)
      | Raise e => Raise e
      | OutOfFuel => OutOfFuel
      end
  | Raise e => Raise e
  | OutOfFuel => OutOfFuel
  end.

(** [str.lower], on strings of ASCII characters. *)
Definition lower_ascii (c : Ascii.ascii) : Ascii.ascii :=
  let n := Ascii.nat_of_ascii c in
  if (65 <=? n)%nat && (n <=? 90)%nat then Ascii.ascii_of_nat (n + 32) else c.

Fixpoint lower (s : string) : string :=
  match s with
  | EmptyString => EmptyString
  | String c s' => String (lower_ascii c) (lower s')
  end.

(** [OrderBook.notional_ahead] *)
Definition book_notional_ahead (b : OrderBook) (side : string) (price : Qc) : outcome Qc :=
  let s := lower side in
  if bool_decide (s ∈ ["ask"; "asks"; "sell"]%string) then Return (notional_ahead (asks b) price)
  else if bool_decide (s ∈ ["bid"; "bids"; "buy"]%string) then Return (notional_ahead (bids b) price)
  else Raise ValueError.

(** The two updates in the body of the [while] loop of
    [place_limit_order]:
    [side.update_level(p, level_q - take)] and then
    [if p in side.qty and side.qty[p] <= 1e-15: side.update_level(p, 0.0)]. *)
Definition take_level (p level_q take : Qc) : M SideBook unit :=
  update_level p (level_q - take) ;;;
  (λ sb, match qty sb !! p with
         | Some r => if leb r tolerance then update_level p 0 sb else (Return (), sb)
         | None => (Return (), sb)
         end).

(** The [while] loop of [place_limit_order], on the side being hit:
    [marketable p] is [p <= price] for a buy and [p >= price] for a sell.
    The state is the side, the value threaded through is the local [qty]. *)
Fixpoint cross_loop (marketable : Qc → bool) (fuel : nat) (q : Qc) : M SideBook Qc := λ sb,
  match prices sb with
  | p :: _ =>
      if marketable p && ltb tolerance q then
        match fuel with
        | O => (OutOfFuel, sb)
        | S fuel' =>
            match qty sb !! p with
            | None => (Raise KeyError, sb)
            | Some level_q =>
                let take := py_min level_q q in
                (take_level p level_q take ;;;
                 cross_loop marketable fuel' (q - take)) sb
            end
        end
      else (Return q, sb)
  | [] => (Return q, sb)
  end.

(** The residual of a simulated order rests on its own side:
    [if qty > 1e-15: existing = own.qty.get(price, 0.0);
     own.update_level(price, existing + qty)], where [own] is [self.bids]
    for a buy and [self.asks] for a sell. *)
Definition rest_residual (own : ∀ A, M SideBook A → M OrderBook A)
    (price rem : Qc) : M OrderBook unit :=
  if ltb tolerance rem then
    own unit (λ sb, update_level price (default 0 (qty sb !! price) + rem) sb)
  else ret ().

(** [OrderBook.place_limit_order] *)
Definition place_limit_order (fuel : nat) (side : string) (price q : Qc) : M OrderBook TopN :=
  let s := lower side in
  if leb q 0 then reads top10
  else if bool_decide (s ∈ ["buy"; "bid"]%string) then
    rem <~ on_asks (cross_loop (λ p, leb p price) fuel q) ;;
    rest_residual (@on_bids) price rem ;;;
    reads top10
  else if bool_decide (s ∈ ["sell"; "ask"]%string) then
    rem <~ on_bids (cross_loop (λ p, leb price p) fuel q) ;;
    rest_residual (@on_asks) price rem ;;;
    reads top10
  else raise ValueError.

(** ** OrderBookEngine

    Books are objects: the registry [self.books] maps a symbol to a
    reference, and the heap maps a reference to the book it denotes, so
    that a reference handed out by [expose] and the registry entry are the
    same object.  The rows that reading [self.path] yields are the
    [file] argument of [build_until]; parsing is left to the reader. *)

Definition loc := positive.

Record Engine := mkEngine {
  books : gmap string loc;
  heap : gmap loc OrderBook
}.

(** [OrderBookEngine.__init__] *)
Definition new_engine : Engine := mkEngine ∅ ∅.

(** The object behind a reference (every reference the program holds is
    allocated; the default is never used from a state it can reach). *)
Definition deref (e : Engine) (l : loc) : OrderBook := default new_book (heap e !! l).

(** A method call on the book behind [l]. *)
Definition on_book {A} (l : loc) (m : M OrderBook A) : M Engine A := λ e,
  let '(r, b) := m (deref e l) in (r, mkEngine (books e) (<[l := b]> (heap e))).

(** [OrderBookEngine._book] *)
Definition _book (symbol : string) : M Engine loc := λ e,
  match books e !! symbol with
  | Some l => (Return l, e)
  | None =>
      let l := fresh (dom (heap e)) in
      (Return l, mkEngine (<[symbol := l]> (books e)) (<[l := new_book]> (heap e)))
  end.

(** One parsed row of the file. *)
Record Row := mkRow {
  row_symbol : string;
  row_time : Qc;
  row_bids : Levels;
  row_asks : Levels
}.

(** The [for row in reader] loop of [build_until], with its [continue]
    and [break]; [seen] is the local flag. *)
Fixpoint replay (symbol : string) (until_ts : Qc) (rows : list Row) (seen : bool)
    : M OrderBook unit :=
  match rows with
  | [] => ret ()
  | row :: rest =>
      if bool_decide (row_symbol row ≠ symbol) then replay symbol until_ts rest seen
      else
        (if negb seen then apply_snapshot (row_bids row) (row_asks row)
         else apply_diff (row_bids row) (row_asks row)) ;;;
        if leb until_ts (row_time row) then ret ()
        else replay symbol until_ts rest true
  end.

(** [OrderBookEngine.build_until] *)
Definition build_until (file : list Row) (symbol : string) (until_ts : Qc) : M Engine TopN :=
  l <~ _book symbol ;;
  on_book l (replay symbol until_ts file false ;;; reads top10).

(** [OrderBookEngine.expose]: [self.books.get(symbol, None)]. *)
Definition expose (e : Engine) (symbol : string) : outcome (option loc) :=
  Return (books e !! symbol).

(** ** The invariant of a side and its view as a list of levels *)

(** Strictly better: lower for asks, higher for bids. *)
Definition side_lt (ask : bool) (a b : Qc) : Prop := if ask then a < b else b < a.
(** Better or equal. *)
Definition side_le (ask : bool) (a b : Qc) : Prop := if ask then a ≤ b else b ≤ a.

Record side_ok (sb : SideBook) : Prop := mkSideOk {
  ok_sorted : StronglySorted (side_lt (is_ask sb)) (prices sb);
  ok_keys : ∀ p, p ∈ prices sb ↔ is_Some (qty sb !! p);
  ok_pos : ∀ p q, qty sb !! p = Some q → 0 < q
}.

Definition book_ok (b : OrderBook) : Prop :=
  side_ok (bids b) ∧ side_ok (asks b) ∧ is_ask (bids b) = false ∧ is_ask (asks b) = true.

(** The levels of a side, best first. *)
Definition levels (sb : SideBook) : Levels :=
  (λ p, (p, default 0 (qty sb !! p))) <$> prices sb.

(** The side that holds exactly the given levels. *)
Definition side_of (ask : bool) (l : Levels) : SideBook :=
  mkSide ask l.*1 (list_to_map l).

(** What [update_level] does to the quantity dictionary. *)
Definition upsert_map (m : gmap Qc Qc) (p q : Qc) : gmap Qc Qc :=
  if leb q 0 then delete p m else <[p := q]> m.

#[global] Instance side_lt_dec ask : RelDecision (side_lt ask).
Proof. intros a b. destruct ask; cbn; apply _. Defined.
#[global] Instance side_le_dec ask : RelDecision (side_le ask).
Proof. intros a b. destruct ask; cbn; apply _. Defined.

(** The invariant in a form that can be evaluated. *)
Definition side_ok_check (sb : SideBook) : Prop :=
  StronglySorted (side_lt (is_ask sb)) (prices sb) ∧
  list_to_set (prices sb) =@{gset Qc} dom (qty sb) ∧
  map_Forall (λ _ q, 0 < q) (qty sb).

Lemma side_ok_check_iff sb : side_ok_check sb ↔ side_ok sb.
Proof.
  split.
  - intros (Hs & Hk & Hp). split; [done| |].
    + intros p. rewrite <-elem_of_dom, <-Hk. set_solver.
    + intros p q ?. by apply (Hp p q).
  - intros [Hs Hk Hp]. split_and!; [done| |].
    + apply set_eq. intros p. rewrite elem_of_dom, elem_of_list_to_set. apply Hk.
    + intros p q ?. by apply (Hp p q).
Qed.

#[global] Instance side_ok_dec sb : Decision (side_ok sb).
Proof.
  refine (cast_if (decide (side_ok_check sb))); by rewrite <-side_ok_check_iff.
Defined.

#[global] Instance book_ok_dec b : Decision (book_ok b).
Proof. unfold book_ok. apply _. Defined.

(** [for price, qty in batch: side.update_level(price, qty)] *)
Definition upserts (batch : Levels) : M SideBook unit :=
  for_each (λ '(price, q), update_level price q) batch.

(** Notional of a list of levels: the sum of price × quantity. *)
Definition sum_notional (l : Levels) : Qc :=
  foldr (λ '(p, q) acc, p * q + acc) 0 l.

(** The notional ahead of a threshold as the specification words it: the
    sum over exactly the levels that are better than or equal to the
    threshold ([price <= t] on asks, [price >= t] on bids). *)
Definition notional_ahead_spec (sb : SideBook) (t : Qc) : Qc :=
  sum_notional (filter (λ lv, side_le (is_ask sb) lv.1 t) (levels sb)).

(** ** Merging a snapshot batch and a diff batch *)

(** A batch read as a mapping from price to quantity; a later entry for a
    price supersedes an earlier one. *)
Definition batch_map (B : Levels) : gmap Qc Qc :=
  foldl (λ m '(p, q), <[p := q]> m) ∅ B.

(** Level-by-level merge: an entry of [D] at a price replaces the entry of
    [S] at that price, an entry of [D] with quantity [<= 0] removes it, and
    the other entries of [S] are kept. *)
Definition merge_map (S D : Levels) : gmap Qc Qc :=
  filter (λ kv, 0 < kv.2) (batch_map D ∪ batch_map S).

Definition merge_levels (S D : Levels) : Levels := map_to_list (merge_map S D).

(** The same merge on lists, keeping the order of the batches: the entries
    of [S] whose price [D] does not mention, followed by [D]. *)
Definition merge_concat (S D : Levels) : Levels :=
  filter (λ lv, lv.1 ∉ D.*1) S ++ D.

(** ** The crossing algorithm as the specification words it *)

(** [min] of the specification. *)
Definition qmin (a b : Qc) : Qc := if decide (a ≤ b) then a else b.

(** One turn of the crossing loop on the levels of the side being hit,
    best level first, and the remaining quantity: while a best level exists,
    is marketable and the remaining quantity exceeds the tolerance, take
    [min(level quantity, remaining)] from both, and drop the level when its
    remainder is at or below the tolerance. *)
Inductive cross_step (marketable : Qc → Prop) : Levels * Qc → Levels * Qc → Prop :=
  | CrossStep p q rest rem :
      marketable p → tolerance < rem →
      cross_step marketable
        ((p, q) :: rest, rem)
        (if decide (q - qmin q rem ≤ tolerance) then rest
         else (p, q - qmin q rem) :: rest,
         rem - qmin q rem).

(** The loop has stopped: no best level, or it is not marketable, or the
    remaining quantity does not exceed the tolerance. *)
Definition cross_done (marketable : Qc → Prop) (st : Levels * Qc) : Prop :=
  match st.1 with
  | [] => True
  | (p, _) :: _ => ¬ marketable p ∨ st.2 ≤ tolerance
  end.

(** The residual rests on the order's own side: if it exceeds the
    tolerance it is added at the limit price to what already rests there;
    otherwise that side is left alone. *)
Definition residual_rests (own own' : SideBook) (price rem : Qc) : Prop :=
  if decide (tolerance < rem) then
    qty own' = <[price := default 0 (qty own !! price) + rem]> (qty own)
  else own' = own.

(** What a simulated order does to a book, hitting side [hit] and resting
    on side [own]: the hit side goes through the crossing loop until it
    stops, the residual rests on the own side. *)
Definition crosses (marketable : Qc → Prop)
    (hit hit' own own' : SideBook) (price q : Qc) : Prop :=
  ∃ rem,
    rtc (cross_step marketable) (levels hit, q) (levels hit', rem) ∧
    cross_done marketable (levels hit', rem) ∧
    residual_rests own own' price rem.

(** The book of the crossing example. *)
Definition crossing_example : OrderBook :=
  mkBook (new_side false) (side_of true [(dec 100 1, dec 2 1); (dec 101 1, dec 3 1)]).

#[global] Instance exn_eq_dec : EqDecision exn.
Proof. solve_decision. Defined.
#[global] Instance outcome_eq_dec {A} `{EqDecision A} : EqDecision (outcome A).
Proof. solve_decision. Defined.

(** ** The replay policy as the specification words it *)

(** The records of the stream that belong to the symbol. *)
Definition qualifying (symbol : string) (file : list Row) : list Row :=
  filter (λ r, row_symbol r = symbol) file.

(** The records that get applied: everything up to and including the
    first one whose timestamp is at or after the horizon. *)
Fixpoint applied_until (h : Qc) (rows : list Row) : list Row :=
  match rows with
  | [] => []
  | r :: rest => if decide (h ≤ row_time r) then [r] else r :: applied_until h rest
  end.

(** The first applied record is a snapshot, every later one a diff. *)
Definition replay_spec (rows : list Row) : M OrderBook unit :=
  match rows with
  | [] => ret ()
  | r :: rest =>
      apply_snapshot (row_bids r) (row_asks r) ;;;
      for_each (λ r', apply_diff (row_bids r') (row_asks r')) rest
  end.

(** The book [build_until] works on: the registered one, or a new one. *)
Definition book_before (e : Engine) (symbol : string) : OrderBook :=
  match books e !! symbol with
  | Some l => deref e l
  | None => new_book
  end.

(** The side tokens [place_limit_order] accepts, in lower case. *)
Definition order_tokens : list string := ["buy"; "bid"; "sell"; "ask"]%string.

(** ** The invariant of the registry

    Every registered reference is allocated, and two symbols never share a
    reference: [_book] allocates a new book for each new symbol. *)
Definition engine_ok (e : Engine) : Prop :=
  map_Forall (λ _ l, is_Some (heap e !! l)) (books e) ∧
  map_Forall (λ s1 l1, map_Forall (λ s2 l2, l1 = l2 → s1 = s2) (books e)) (books e).

#[global] Instance engine_ok_dec e : Decision (engine_ok e).
Proof. unfold engine_ok. apply _. Defined.

(** * Properties *)

(** ** Arithmetic on [Qc] through [Q] *)

Lemma leb_true a b : leb a b = true ↔ a ≤ b.
Proof. unfold leb. apply bool_decide_eq_true. Qed.
Lemma leb_false a b : leb a b = false ↔ b < a.
Proof. unfold leb. rewrite bool_decide_eq_false. symmetry. apply Qclt_nge. Qed.
Lemma ltb_true a b : ltb a b = true ↔ a < b.
Proof. unfold ltb. apply bool_decide_eq_true. Qed.
Lemma ltb_false a b : ltb a b = false ↔ b ≤ a.
Proof. unfold ltb. rewrite bool_decide_eq_false. symmetry. apply Qcle_ngt. Qed.

Lemma Qc_eq_this (a b : Qc) : a = b ↔ (this a == this b)%Q.
Proof. split; [intros ->; reflexivity | apply Qc_is_canon]. Qed.

Ltac qc_arith :=
  repeat match goal with
         | H : @eq Qc _ _ |- _ => apply Qc_eq_this in H
         | H : ¬ @eq Qc _ _ |- _ => rewrite Qc_eq_this in H
         end;
  try (apply Qc_eq_this);
  unfold Qcle, Qclt, Qcminus, Qcplus, Qcopp, Qcmult, Q2Qc, tolerance in *;
  cbn [this] in *;
  repeat (rewrite !Qred_correct in * );
  repeat match goal with x : Qc |- _ => generalize dependent (this x); clear x; intros end;
  lra.

Lemma tolerance_pos : 0 < tolerance.
Proof. reflexivity. Qed.

(** ** Binary search on a sorted list *)

Section bisect.
Variable a : list Qc.
Hypothesis mono : ∀ i j yi yj, (i ≤ j)%nat → a !! i = Some yi → a !! j = Some yj → yi ≤ yj.

Lemma mid_bounds (lo hi : nat) : (lo < hi → lo ≤ (lo + hi) / 2 < hi)%nat.
Proof.
  intros. split.
  - apply Nat.div_le_lower_bound; lia.
  - apply Nat.Div0.div_lt_upper_bound; lia.
Qed.

(** Fuel above [hi - lo] is never used up: more fuel changes nothing. *)
Lemma bisect_left_loop_fuel (l : list Qc) x f1 : ∀ f2 lo hi,
  (hi - lo < f1)%nat → (hi - lo < f2)%nat →
  bisect_left_loop f1 l x lo hi = bisect_left_loop f2 l x lo hi.
Proof.
  induction f1 as [|f1 IH]; intros [|f2] lo hi H1 H2; try lia.
  cbn [bisect_left_loop]. case_decide as Hlt; [|done].
  pose proof (mid_bounds lo hi Hlt).
  destruct (l !! _) as [y|]; [|done].
  destruct (ltb y x); apply IH; lia.
Qed.

Lemma bisect_right_loop_fuel (l : list Qc) x f1 : ∀ f2 lo hi,
  (hi - lo < f1)%nat → (hi - lo < f2)%nat →
  bisect_right_loop f1 l x lo hi = bisect_right_loop f2 l x lo hi.
Proof.
  induction f1 as [|f1 IH]; intros [|f2] lo hi H1 H2; try lia.
  cbn [bisect_right_loop]. case_decide as Hlt; [|done].
  pose proof (mid_bounds lo hi Hlt).
  destruct (l !! _) as [y|]; [|done].
  destruct (ltb x y); apply IH; lia.
Qed.

Lemma bisect_left_loop_spec x fuel : ∀ lo hi,
  (lo ≤ hi ≤ length a)%nat → (hi - lo < fuel)%nat →
  (∀ i y, a !! i = Some y → (i < lo)%nat → y < x) →
  (∀ i y, a !! i = Some y → (hi ≤ i)%nat → x ≤ y) →
  let r := bisect_left_loop fuel a x lo hi in
  (r ≤ length a)%nat ∧
  (∀ i y, a !! i = Some y → (i < r)%nat → y < x) ∧
  (∀ i y, a !! i = Some y → (r ≤ i)%nat → x ≤ y).
Proof.
  induction fuel as [|fuel IH]; intros lo hi Hb Hf Hlo Hhi; [lia|].
  cbn [bisect_left_loop]. case_decide as Hlt.
  - pose proof (mid_bounds lo hi Hlt) as Hm.
    destruct (lookup_lt_is_Some_2 a ((lo + hi) / 2)) as [y Hy]; [lia|].
    rewrite Hy. destruct (ltb y x) eqn:Hc.
    + apply ltb_true in Hc. apply IH; [lia | lia | | done].
      intros i z Hz Hi. apply Qcle_lt_trans with y; [|done].
      apply (mono i ((lo + hi) / 2)); [lia | done | done].
    + apply ltb_false in Hc. apply IH; [lia | lia | done |].
      intros i z Hz Hi. apply Qcle_trans with y; [done|].
      apply (mono ((lo + hi) / 2) i); [lia | done | done].
  - assert (lo = hi) as -> by lia. repeat split; [lia | done | done].
Qed.

Lemma bisect_left_spec x :
  let r := bisect_left a x in
  Forall (λ y, y < x) (take r a) ∧ Forall (λ y, x ≤ y) (drop r a).
Proof.
  unfold bisect_left.
  destruct (bisect_left_loop_spec x (S (length a)) 0 (length a)) as (Hr & Hl & Hg).
  - lia.
  - lia.
  - intros; lia.
  - intros i y Hy Hi. apply lookup_lt_Some in Hy. lia.
  - cbn zeta. split; apply Forall_lookup; intros i y Hy.
    + apply lookup_take_Some in Hy as [Hy Hi]. eauto.
    + rewrite lookup_drop in Hy. eapply Hg; [done | lia].
Qed.

Lemma bisect_right_loop_spec x fuel : ∀ lo hi,
  (lo ≤ hi ≤ length a)%nat → (hi - lo < fuel)%nat →
  (∀ i y, a !! i = Some y → (i < lo)%nat → y ≤ x) →
  (∀ i y, a !! i = Some y → (hi ≤ i)%nat → x < y) →
  let r := bisect_right_loop fuel a x lo hi in
  (r ≤ length a)%nat ∧
  (∀ i y, a !! i = Some y → (i < r)%nat → y ≤ x) ∧
  (∀ i y, a !! i = Some y → (r ≤ i)%nat → x < y).
Proof.
  induction fuel as [|fuel IH]; intros lo hi Hb Hf Hlo Hhi; [lia|].
  cbn [bisect_right_loop]. case_decide as Hlt.
  - pose proof (mid_bounds lo hi Hlt) as Hm.
    destruct (lookup_lt_is_Some_2 a ((lo + hi) / 2)) as [y Hy]; [lia|].
    rewrite Hy. destruct (ltb x y) eqn:Hc.
    + apply ltb_true in Hc. apply IH; [lia | lia | done |].
      intros i z Hz Hi. apply Qclt_le_trans with y; [done|].
      apply (mono ((lo + hi) / 2) i); [lia | done | done].
    + apply ltb_false in Hc. apply IH; [lia | lia | | done].
      intros i z Hz Hi. apply Qcle_trans with y; [|done].
      apply (mono i ((lo + hi) / 2)); [lia | done | done].
  - assert (lo = hi) as -> by lia. repeat split; [lia | done | done].
Qed.

Lemma bisect_right_spec x :
  let r := bisect_right a x in
  Forall (λ y, y ≤ x) (take r a) ∧ Forall (λ y, x < y) (drop r a).
Proof.
  unfold bisect_right.
  destruct (bisect_right_loop_spec x (S (length a)) 0 (length a)) as (Hr & Hl & Hg).
  - lia.
  - lia.
  - intros; lia.
  - intros i y Hy Hi. apply lookup_lt_Some in Hy. lia.
  - cbn zeta. split; apply Forall_lookup; intros i y Hy.
    + apply lookup_take_Some in Hy as [Hy Hi]. eauto.
    + rewrite lookup_drop in Hy. eapply Hg; [done | lia].
Qed.
End bisect.

Lemma sorted_lookup_mono (R : relation Qc) (a : list Qc) :
  StronglySorted R a →
  ∀ i j yi yj, (i < j)%nat → a !! i = Some yi → a !! j = Some yj → R yi yj.
Proof.
  induction 1 as [|x l Hs IH Hx]; intros i j yi yj Hij Hi Hj; [done|].
  destruct j as [|j]; [lia|]. cbn in Hj.
  destruct i as [|i]; cbn in Hi.
  - injection Hi as <-. rewrite Forall_forall in Hx. apply Hx.
    by eapply list_elem_of_lookup_2.
  - apply (IH i j); [lia | done | done].
Qed.

Lemma asc_mono (a : list Qc) :
  StronglySorted Qclt a →
  ∀ i j yi yj, (i ≤ j)%nat → a !! i = Some yi → a !! j = Some yj → yi ≤ yj.
Proof.
  intros Hs i j yi yj Hij Hi Hj. destruct (decide (i = j)) as [->|Hne].
  - rewrite Hi in Hj. injection Hj as <-. apply Qcle_refl.
  - apply Qclt_le_weak. apply (sorted_lookup_mono _ _ Hs i j); [lia | done | done].
Qed.

Lemma desc_neg_sorted (a : list Qc) :
  StronglySorted (flip Qclt) a → StronglySorted Qclt ((λ p, - p) <$> a).
Proof.
  induction 1 as [|x l Hs IH Hx]; cbn; constructor; [done|].
  apply Forall_fmap. eapply Forall_impl; [exact Hx|].
  intros y Hy. cbn in *. unfold flip in Hy. qc_arith.
Qed.

(** ** Sorted price lists *)

#[local] Instance side_lt_trans ask : Transitive (side_lt ask).
Proof. destruct ask; intros x y z; cbn; intros; qc_arith. Qed.

Lemma side_lt_irrefl ask x : ¬ side_lt ask x x.
Proof. destruct ask; cbn; intros H; qc_arith. Qed.

Lemma side_le_neq_lt ask x y : side_le ask x y → x ≠ y → side_lt ask x y.
Proof. destruct ask; cbn; intros H Hne; qc_arith. Qed.

Lemma sorted_NoDup ask (l : list Qc) : StronglySorted (side_lt ask) l → NoDup l.
Proof.
  induction 1 as [|x l Hs IH Hx]; constructor; [|done].
  intros Hin. rewrite Forall_forall in Hx. by apply (side_lt_irrefl ask x), Hx.
Qed.

Lemma sorted_unique ask (l1 l2 : list Qc) :
  StronglySorted (side_lt ask) l1 → StronglySorted (side_lt ask) l2 →
  (∀ x, x ∈ l1 ↔ x ∈ l2) → l1 = l2.
Proof.
  intros H1 H2 Hel. apply (StronglySorted_unique_strong (side_lt ask)); [|done|done|].
  - intros x y _ _ Hxy Hyx. exfalso. apply (side_lt_irrefl ask x). by trans y.
  - apply NoDup_Permutation; eauto using sorted_NoDup.
Qed.

Lemma key_index_spec (sb : SideBook) (price : Qc) :
  StronglySorted (side_lt (is_ask sb)) (prices sb) →
  Forall (λ y, side_lt (is_ask sb) y price) (take (_key_index sb price) (prices sb)) ∧
  Forall (λ y, side_le (is_ask sb) price y) (drop (_key_index sb price) (prices sb)).
Proof.
  unfold _key_index. destruct (is_ask sb); intros Hs.
  - apply bisect_left_spec. by apply asc_mono.
  - apply desc_neg_sorted in Hs.
    destruct (bisect_left_spec _ (asc_mono _ Hs) (- price)) as [Hl Hr]. cbn zeta in *.
    rewrite <-fmap_take, Forall_fmap in Hl. rewrite <-fmap_drop, Forall_fmap in Hr.
    split; (eapply Forall_impl; [eassumption|]); intros y Hy; cbn in *; qc_arith.
Qed.

Lemma insert_at_sorted ask (l : list Qc) (r : nat) (x : Qc) :
  StronglySorted (side_lt ask) l →
  Forall (λ y, side_lt ask y x) (take r l) →
  Forall (λ y, side_le ask x y) (drop r l) →
  x ∉ l →
  StronglySorted (side_lt ask) (list_insert_at r x l).
Proof.
  intros Hs Hl Hr Hx. unfold list_insert_at.
  rewrite <-(take_drop r l) in Hs, Hx.
  apply StronglySorted_app in Hs as (Hc & Hs1 & Hs2).
  rewrite Forall_forall in Hl, Hr.
  assert (∀ y, y ∈ drop r l → side_lt ask x y) as Hr'.
  { intros y Hy. apply side_le_neq_lt; [by apply Hr|].
    intros ->. apply Hx. set_solver. }
  apply StronglySorted_app; split_and!; [|done|].
  - intros x1 x2 H1 [->|H2]%elem_of_cons; [by apply Hl|]. by apply Hc.
  - constructor; [done|]. by apply Forall_forall.
Qed.

Lemma elem_of_insert_at (l : list Qc) r x y :
  y ∈ list_insert_at r x l ↔ y = x ∨ y ∈ l.
Proof.
  unfold list_insert_at. rewrite <-(take_drop r l) at 3.
  rewrite !elem_of_app, elem_of_cons. tauto.
Qed.

Lemma list_index_elem (x : Qc) (l : list Qc) :
  x ∈ l → ∃ l1 l2, l = l1 ++ x :: l2 ∧ list_index x l = Some (length l1).
Proof.
  induction l as [|y l IH]; [by intros ?%elem_of_nil|].
  intros Hin. cbn. case_decide as Hy.
  - subst y. by exists [], l.
  - apply elem_of_cons in Hin as [->|Hin]; [done|].
    destruct (IH Hin) as (l1 & l2 & -> & Hi).
    exists (y :: l1), l2. by rewrite Hi.
Qed.

(** ** [update_level] on a side that satisfies the invariant *)

Lemma update_level_ok (sb : SideBook) (p q : Qc) :
  side_ok sb →
  ∃ sb', update_level p q sb = (Return (), sb') ∧ side_ok sb' ∧
         is_ask sb' = is_ask sb ∧ qty sb' = upsert_map (qty sb) p q.
Proof.
  intros [Hs Hk Hp]. unfold update_level, upsert_map.
  destruct (leb q 0) eqn:Hq.
  - destruct (qty sb !! p) as [v|] eqn:Hv.
    + assert (p ∈ prices sb) as Hin by (apply Hk; eauto).
      destruct (list_index_elem _ _ Hin) as (l1 & l2 & Hl & ->).
      eexists; split; [done|]. cbn. split_and!; [|done|done].
      rewrite Hl, delete_middle. rewrite Hl in Hs.
      pose proof (sorted_NoDup _ _ Hs) as Hnd.
      apply NoDup_app in Hnd as (_ & Hnd1 & [Hnd2 _]%NoDup_cons).
      split; cbn.
      * apply StronglySorted_app in Hs as (Hc & Hs1 & [_ Hs2]%StronglySorted_cons).
        apply StronglySorted_app; split_and!; [|done|done].
        intros x1 x2 H1 H2. apply Hc; set_solver.
      * intros p'. rewrite lookup_delete. case_decide as Hpp.
        -- subst p'. split; [|by intros []]. intros [?|?]%elem_of_app; [|done].
           exfalso. eapply Hnd1; [done|]. set_solver.
        -- rewrite <-Hk, Hl. set_solver.
      * intros p' q'. rewrite lookup_delete. case_decide; [done|]. apply Hp.
    + eexists; split; [done|]. split_and!; [done|done|].
      by rewrite delete_id.
  - apply leb_false in Hq. destruct (qty sb !! p) as [v|] eqn:Hv.
    + eexists; split; [done|]. cbn. split_and!; [|done|done].
      split; cbn; [done| |].
      * intros p'. rewrite lookup_insert. case_decide as Hpp.
        -- subst p'. split; [eauto|]. intros _. apply Hk. eauto.
        -- apply Hk.
      * intros p' q'. rewrite lookup_insert. case_decide; [by intros [= <-]|]. apply Hp.
    + assert (p ∉ prices sb) as Hin.
      { intros Hin%Hk. rewrite Hv in Hin. by destruct Hin. }
      eexists; split; [done|]. cbn. split_and!; [|done|done].
      destruct (key_index_spec sb p Hs) as [Hl Hr].
      split; cbn.
      * by apply insert_at_sorted.
      * intros p'. rewrite elem_of_insert_at, lookup_insert. case_decide as Hpp.
        -- subst p'. split; eauto.
        -- rewrite <-Hk. naive_solver.
      * intros p' q'. rewrite lookup_insert. case_decide; [by intros [= <-]|]. apply Hp.
Qed.

Lemma side_ok_ext (s1 s2 : SideBook) :
  side_ok s1 → side_ok s2 → is_ask s1 = is_ask s2 → qty s1 = qty s2 → s1 = s2.
Proof.
  intros [Hs1 Hk1 _] [Hs2 Hk2 _] Ha Hq.
  destruct s1 as [a1 p1 q1], s2 as [a2 p2 q2]; cbn in *. subst a2 q2.
  f_equal. apply (sorted_unique a1); [done|done|].
  intros x. by rewrite Hk1, Hk2.
Qed.

Lemma new_side_ok ask : side_ok (new_side ask).
Proof.
  split; cbn.
  - constructor.
  - intros p. rewrite lookup_empty. split; [by intros ?%elem_of_nil | by intros []].
  - intros p q. by rewrite lookup_empty.
Qed.

Lemma upserts_ok (batch : Levels) : ∀ sb,
  side_ok sb →
  ∃ sb', upserts batch sb = (Return (), sb') ∧ side_ok sb' ∧
         is_ask sb' = is_ask sb ∧
         qty sb' = foldl (λ m '(p, q), upsert_map m p q) (qty sb) batch.
Proof.
  induction batch as [|[p q] batch IH]; intros sb Hok.
  - by exists sb.
  - destruct (update_level_ok sb p q Hok) as (sb1 & E1 & Hok1 & Ha1 & Hq1).
    destruct (IH sb1 Hok1) as (sb2 & E2 & Hok2 & Ha2 & Hq2).
    exists sb2. split_and!; [|done|congruence|].
    + unfold upserts in *. cbn. unfold bind. by rewrite E1.
    + cbn. by rewrite <-Hq1.
Qed.

(** ** C2: what one upsert does *)

(** C2, as stated, fails: [update_level] compares the new quantity with 0,
    not with the tolerance [1e-15].  The quantity [5e-16] is at or below the
    tolerance, yet upserting it at price 100 into an empty ask side is not a
    no-op: it creates the level. *)
Lemma C2_counterexample :
  dec 1 2000000000000000 ≤ tolerance ∧
  update_level (dec 100 1) (dec 1 2000000000000000) (new_side true)
    = (Return (), side_of true [(dec 100 1, dec 1 2000000000000000)]) ∧
  update_level (dec 100 1) (dec 1 2000000000000000) (new_side true)
    ≠ (Return (), new_side true).
Proof. split_and!; compute_done. Qed.

(** C2 (amended): on a side that satisfies the invariant, [update_level p q]
    returns normally and keeps the invariant.  With [q <= 0] it removes the
    level at [p] if present (all other levels stay) and changes nothing if
    absent.  With [q > 0] it replaces the quantity if [p] is present (prices
    untouched), and otherwise inserts [p] between the strictly better prices
    and the rest and records [q].  Afterwards no level has a quantity
    [<= 0]. *)
Theorem C2_update_level (sb : SideBook) (p q : Qc) :
  side_ok sb →
  ∃ sb', update_level p q sb = (Return (), sb') ∧
    side_ok sb' ∧ is_ask sb' = is_ask sb ∧
    (q ≤ 0 →
       qty sb' = delete p (qty sb) ∧
       (∀ p', p' ∈ prices sb' ↔ p' ∈ prices sb ∧ p' ≠ p) ∧
       (qty sb !! p = None → sb' = sb)) ∧
    (0 < q →
       qty sb' = <[p := q]> (qty sb) ∧
       (is_Some (qty sb !! p) → prices sb' = prices sb) ∧
       (qty sb !! p = None →
          ∃ l1 l2, prices sb = l1 ++ l2 ∧ prices sb' = l1 ++ p :: l2 ∧
                   Forall (λ y, side_lt (is_ask sb) y p) l1 ∧
                   Forall (λ y, side_lt (is_ask sb) p y) l2)) ∧
    (∀ p' q', qty sb' !! p' = Some q' → 0 < q').
Proof.
  intros Hok.
  destruct (update_level_ok sb p q Hok) as (sb' & E & Hok' & Ha & Hq).
  exists sb'. split_and!; [done|done|done| | |by destruct Hok'].
  - intros Hle. apply leb_true in Hle. unfold upsert_map in Hq. rewrite Hle in Hq.
    split_and!; [done| |].
    + intros p'. destruct Hok as [_ Hk _], Hok' as [_ Hk' _].
      rewrite Hk, Hk', Hq, lookup_delete. case_decide; [subst|]; [|naive_solver].
      split; [by intros []|]. by intros [_ ?].
    + intros Hn. unfold update_level in E. rewrite Hle, Hn in E. congruence.
  - intros Hlt. apply leb_false in Hlt. unfold upsert_map in Hq. rewrite Hlt in Hq.
    split_and!; [done| |].
    + intros [v Hv]. unfold update_level in E. rewrite Hlt, Hv in E.
      by injection E as <-.
    + intros Hn. unfold update_level in E. rewrite Hlt, Hn in E.
      injection E as <-. cbn. unfold list_insert_at.
      destruct Hok as [Hs Hk _]. destruct (key_index_spec sb p Hs) as [Hl Hr].
      eexists _, _. split_and!; [symmetry; apply take_drop|done|done|].
      rewrite Forall_forall in Hr. apply Forall_forall. intros y Hy.
      apply side_le_neq_lt; [by apply Hr|]. intros ->.
      assert (y ∈ prices sb) as Hin%Hk.
      { rewrite <-(take_drop (_key_index sb y) (prices sb)). set_solver. }
      rewrite Hn in Hin. by destruct Hin.
Qed.

Lemma C2_update_level_witness :
  let sb := side_of true [(dec 100 1, dec 1 1)] in
  side_ok sb ∧
  ∃ sb', update_level (dec 101 1) (dec 2 1) sb = (Return (), sb') ∧
         prices sb' = [dec 100 1; dec 101 1].
Proof.
  cbn zeta. assert (side_ok (side_of true [(dec 100 1, dec 1 1)])) as Hok by compute_done.
  split; [exact Hok|].
  destruct (C2_update_level _ (dec 101 1) (dec 2 1) Hok) as (sb' & E & _).
  exists sb'. split; [exact E|].
  vm_compute in E. injection E as <-. reflexivity.
Defined.

(** ** C3: the invariant after any sequence of upserts *)

(** C3: any finite sequence of [update_level] calls on an initially empty
    side returns normally and leaves a price list that is strictly ascending
    (asks) or strictly descending (bids), without duplicates, whose set of
    prices is the key set of the quantity dictionary, and in which every
    stored quantity is strictly positive. *)
Theorem C3_upserts_invariant (ask : bool) (batch : Levels) :
  ∃ sb, upserts batch (new_side ask) = (Return (), sb) ∧
    (if ask then StronglySorted (λ a b, a < b) (prices sb)
     else StronglySorted (λ a b, b < a) (prices sb)) ∧
    NoDup (prices sb) ∧
    list_to_set (prices sb) =@{gset Qc} dom (qty sb) ∧
    (∀ p q, qty sb !! p = Some q → 0 < q).
Proof.
  destruct (upserts_ok batch (new_side ask) (new_side_ok ask))
    as (sb & E & Hok & Ha & _).
  exists sb. split; [done|].
  pose proof (proj2 (side_ok_check_iff sb) Hok) as (Hs & Hk & Hp).
  cbn in Ha. rewrite Ha in Hs. split_and!.
  - by destruct ask.
  - by eapply sorted_NoDup.
  - done.
  - by destruct Hok.
Qed.

(** ** C4: notional ahead of a threshold *)

Lemma filter_all {A} (P : A → Prop) `{!∀ x, Decision (P x)} (l : list A) :
  Forall P l → filter P l = l.
Proof.
  induction 1 as [|x l Hx _ IH]; [done|]. by rewrite filter_cons_True, IH.
Qed.

Lemma filter_none {A} (P : A → Prop) `{!∀ x, Decision (P x)} (l : list A) :
  Forall (λ x, ¬ P x) l → filter P l = [].
Proof.
  induction 1 as [|x l Hx _ IH]; [done|]. by rewrite filter_cons_False, IH.
Qed.

Lemma filter_take_drop {A} (P : A → Prop) `{!∀ x, Decision (P x)} (l : list A) r :
  Forall P (take r l) → Forall (λ x, ¬ P x) (drop r l) → filter P l = take r l.
Proof.
  intros Hl Hr. rewrite <-(take_drop r l) at 1.
  by rewrite filter_app, (filter_none _ (drop r l)), app_nil_r, filter_all.
Qed.

Lemma sum_notional_nil : sum_notional [] = 0.
Proof. reflexivity. Qed.

Lemma sum_notional_cons p q l : sum_notional ((p, q) :: l) = p * q + sum_notional l.
Proof. reflexivity. Qed.

Lemma foldl_notional (m : gmap Qc Qc) (ps : list Qc) : ∀ acc : Qc,
  foldl (λ total p, total + p * default 0 (m !! p)) acc ps
  = acc + sum_notional ((λ p, (p, default 0 (m !! p))) <$> ps).
Proof.
  induction ps as [|p ps IH]; intros acc.
  - rewrite fmap_nil, sum_notional_nil. cbn [foldl]. ring.
  - rewrite fmap_cons, sum_notional_cons. cbn [foldl]. rewrite IH. ring.
Qed.

Lemma scan_desc_spec (m : gmap Qc Qc) (t : Qc) (ps : list Qc) : ∀ acc : Qc,
  StronglySorted (side_lt false) ps →
  scan_desc m t ps acc
  = acc + sum_notional (filter (λ lv, side_le false lv.1 t)
                               ((λ p, (p, default 0 (m !! p))) <$> ps)).
Proof.
  induction ps as [|p ps IH]; intros acc Hs; cbn [scan_desc].
  - rewrite fmap_nil, filter_nil, sum_notional_nil. ring.
  - apply StronglySorted_cons in Hs as [Hp Hs]. rewrite fmap_cons.
    destruct (leb t p) eqn:Hc.
    + apply leb_true in Hc. rewrite filter_cons_True by done.
      rewrite IH by done. rewrite sum_notional_cons. ring.
    + apply leb_false in Hc. rewrite filter_cons_False by (cbn; intros ?; qc_arith).
      rewrite filter_none; [rewrite sum_notional_nil; ring|].
      apply Forall_fmap. eapply Forall_impl; [exact Hp|].
      intros y Hy. cbn in *. intros ?. qc_arith.
Qed.

(** C4: on a side whose prices are strictly sorted in its direction,
    [notional_ahead t] is the
    sum of price × quantity over exactly the levels with [price <= t] (asks)
    or [price >= t] (bids); it is 0 on an empty side; and on the ask side
    {100:1, 101:2, 103:5} it is 817 at threshold 103 and 100 at 100.5. *)
Theorem C4_notional_ahead :
  (∀ sb t, StronglySorted (side_lt (is_ask sb)) (prices sb) →
           notional_ahead sb t = notional_ahead_spec sb t) ∧
  (∀ ask t, notional_ahead (new_side ask) t = 0) ∧
  (let sb := side_of true [(dec 100 1, dec 1 1); (dec 101 1, dec 2 1); (dec 103 1, dec 5 1)] in
   side_ok sb ∧
   notional_ahead sb (dec 103 1) = dec 817 1 ∧
   notional_ahead sb (dec 1005 10) = dec 100 1).
Proof.
  split_and!.
  - intros sb t Hs.
    assert ((if is_ask sb then
               let idx := (Z.of_nat (bisect_right (prices sb) t) - 1)%Z in
               if (idx <? 0)%Z then 0
               else foldl (λ total p, total + p * default 0 (qty sb !! p)) 0
                          (take (Z.to_nat (idx + 1)) (prices sb))
             else scan_desc (qty sb) t (prices sb) 0) = notional_ahead_spec sb t) as G.
    { unfold notional_ahead_spec, levels. destruct (is_ask sb) eqn:Ha.
      - destruct (bisect_right_spec _ (asc_mono _ Hs) t) as [Hl Hr]. cbn zeta in *.
        set (r := bisect_right (prices sb) t) in *.
        rewrite (filter_take_drop _ _ r).
        2:{ rewrite <-fmap_take. apply Forall_fmap.
            eapply Forall_impl; [exact Hl|]. by intros y Hy. }
        2:{ rewrite <-fmap_drop. apply Forall_fmap.
            eapply Forall_impl; [exact Hr|]. intros y Hy. cbn in *. intros ?. qc_arith. }
        rewrite <-fmap_take.
        destruct (Z.ltb_spec (Z.of_nat r - 1) 0) as [Hr0|Hr0].
        + assert (r = 0%nat) as -> by lia. done.
        + replace (Z.to_nat (Z.of_nat r - 1 + 1)) with r by lia.
          rewrite foldl_notional. ring.
      - rewrite scan_desc_spec by done. ring. }
    unfold notional_ahead. destruct (prices sb) as [|p0 ps] eqn:Hps.
    + unfold notional_ahead_spec, levels. by rewrite Hps.
    + exact G.
  - by intros [] t.
  - cbn zeta. split_and!; compute_done.
Qed.

Lemma C4_notional_ahead_witness :
  let sb := side_of false [(dec 103 1, dec 5 1); (dec 101 1, dec 2 1)] in
  StronglySorted (side_lt (is_ask sb)) (prices sb) ∧
  notional_ahead sb (dec 102 1) = notional_ahead_spec sb (dec 102 1).
Proof.
  cbn zeta. split; [compute_done|].
  apply (proj1 C4_notional_ahead). compute_done.
Defined.

(** ** Batches of upserts on a book *)

Lemma for_each_on_bids (B : Levels) : ∀ b,
  for_each (λ '(price, q), on_bids (update_level price q)) B b = on_bids (upserts B) b.
Proof.
  induction B as [|[p q] B IH]; intros b; [by destruct b|].
  unfold upserts in *. cbn [for_each]. unfold bind, on_bids at 1 3.
  destruct (update_level p q (bids b)) as [[[]|e|] s]; [|done|done].
  rewrite IH. done.
Qed.

Lemma for_each_on_asks (B : Levels) : ∀ b,
  for_each (λ '(price, q), on_asks (update_level price q)) B b = on_asks (upserts B) b.
Proof.
  induction B as [|[p q] B IH]; intros b; [by destruct b|].
  unfold upserts in *. cbn [for_each]. unfold bind, on_asks at 1 3.
  destruct (update_level p q (asks b)) as [[[]|e|] s]; [|done|done].
  rewrite IH. done.
Qed.

Lemma apply_diff_ok (Bb Ba : Levels) (b : OrderBook) :
  book_ok b →
  ∃ b', apply_diff Bb Ba b = (Return (), b') ∧ book_ok b' ∧
        qty (bids b') = foldl (λ m '(p, q), upsert_map m p q) (qty (bids b)) Bb ∧
        qty (asks b') = foldl (λ m '(p, q), upsert_map m p q) (qty (asks b)) Ba.
Proof.
  intros (Hb & Ha & Hfb & Hfa).
  destruct (upserts_ok Bb _ Hb) as (sb & Eb & Hokb & Hab & Hqb).
  destruct (upserts_ok Ba _ Ha) as (sa & Ea & Hoka & Haa & Hqa).
  exists (mkBook sb sa). split_and!; [|split_and!; cbn; congruence|done|done].
  unfold apply_diff, bind. rewrite for_each_on_bids. unfold on_bids. rewrite Eb.
  rewrite for_each_on_asks. unfold on_asks. cbn. by rewrite Ea.
Qed.

Lemma new_book_ok : book_ok new_book.
Proof. unfold book_ok, new_book. cbn. split_and!; auto using new_side_ok. Qed.

Lemma apply_snapshot_ok (Bb Ba : Levels) (b : OrderBook) :
  ∃ b', apply_snapshot Bb Ba b = (Return (), b') ∧ book_ok b' ∧
        qty (bids b') = foldl (λ m '(p, q), upsert_map m p q) ∅ Bb ∧
        qty (asks b') = foldl (λ m '(p, q), upsert_map m p q) ∅ Ba.
Proof.
  destruct (apply_diff_ok Bb Ba new_book new_book_ok) as (b' & E & Hok & Hqb & Hqa).
  exists b'. split_and!; [|done|done|done].
  unfold apply_snapshot, bind at 1. exact E.
Qed.

Lemma book_ok_ext (b1 b2 : OrderBook) :
  book_ok b1 → book_ok b2 →
  qty (bids b1) = qty (bids b2) → qty (asks b1) = qty (asks b2) → b1 = b2.
Proof.
  intros (Hb1 & Ha1 & Hfb1 & Hfa1) (Hb2 & Ha2 & Hfb2 & Hfa2) Hqb Hqa.
  destruct b1 as [sb1 sa1], b2 as [sb2 sa2]; cbn in *.
  f_equal; apply side_ok_ext; congruence.
Qed.

(** ** C5: snapshot followed by diff *)

Lemma batch_map_snoc (B : Levels) p q :
  batch_map (B ++ [(p, q)]) = <[p := q]> (batch_map B).
Proof. unfold batch_map. by rewrite foldl_snoc. Qed.

Lemma batch_map_app (S D : Levels) :
  batch_map (S ++ D) = batch_map D ∪ batch_map S.
Proof.
  induction D as [|[p q] D IH] using rev_ind.
  - rewrite app_nil_r. unfold batch_map at 2. cbn. by rewrite (left_id_L ∅ (∪)).
  - by rewrite app_assoc, !batch_map_snoc, IH, insert_union_l.
Qed.

Lemma batch_map_dom (B : Levels) p : is_Some (batch_map B !! p) ↔ p ∈ B.*1.
Proof.
  induction B as [|[p' q'] B IH] using rev_ind.
  - unfold batch_map. cbn. rewrite lookup_empty, elem_of_nil.
    split; [by intros []|done].
  - rewrite batch_map_snoc, fmap_app, elem_of_app, lookup_insert. cbn.
    rewrite list_elem_of_singleton. case_decide as Hp.
    + subst. split; eauto.
    + rewrite IH. naive_solver.
Qed.

Lemma batch_map_keep (S D : Levels) p :
  p ∉ D.*1 → batch_map (filter (λ lv, lv.1 ∉ D.*1) S) !! p = batch_map S !! p.
Proof.
  intros Hp. induction S as [|[p' q'] S IH] using rev_ind; [done|].
  rewrite filter_app, filter_cons, filter_nil. cbn [fst]. case_decide as Hp'.
  - rewrite !batch_map_snoc, !lookup_insert. by case_decide.
  - rewrite app_nil_r, batch_map_snoc, lookup_insert, IH.
    case_decide; [by subst|done].
Qed.

Lemma batch_map_NoDup (B : Levels) : NoDup B.*1 → batch_map B = list_to_map B.
Proof.
  induction B as [|[p q] B IH] using rev_ind; intros Hnd; [done|].
  rewrite fmap_app in Hnd. apply NoDup_app in Hnd as (Hnd & Hni & _).
  rewrite batch_map_snoc, list_to_map_snoc, IH; [done|done|].
  intros Hin. apply (Hni p Hin). cbn. set_solver.
Qed.

(** The quantity dictionary after a batch of upserts: per price, the last
    entry of the batch decides. *)
Lemma foldl_upsert_lookup (B : Levels) (m : gmap Qc Qc) (p : Qc) :
  foldl (λ m '(p, q), upsert_map m p q) m B !! p
  = match batch_map B !! p with
    | Some q => if leb q 0 then None else Some q
    | None => m !! p
    end.
Proof.
  induction B as [|[p' q'] B IH] using rev_ind; [done|].
  rewrite foldl_snoc, batch_map_snoc. unfold upsert_map at 1.
  rewrite lookup_insert. destruct (leb q' 0) eqn:Hq.
  - rewrite lookup_delete. case_decide; [subst; by rewrite Hq | done].
  - rewrite lookup_insert. case_decide; [subst; by rewrite Hq | done].
Qed.

Lemma merge_levels_lookup (S D : Levels) (p : Qc) :
  foldl (λ m '(p, q), upsert_map m p q) ∅ (merge_levels S D) !! p
  = foldl (λ m '(p, q), upsert_map m p q) ∅ (S ++ D) !! p.
Proof.
  rewrite !foldl_upsert_lookup, lookup_empty.
  unfold merge_levels. rewrite batch_map_NoDup by apply NoDup_fst_map_to_list.
  rewrite list_to_map_to_list, batch_map_app. unfold merge_map.
  rewrite map_lookup_filter.
  destruct ((batch_map D ∪ batch_map S) !! p) as [q|]; [|done]. cbn.
  case_guard as Hq; cbn in *.
  - apply leb_false in Hq. by rewrite Hq.
  - apply Qcle_ngt, leb_true in Hq. by rewrite Hq.
Qed.

Lemma merge_concat_lookup (S D : Levels) (p : Qc) :
  foldl (λ m '(p, q), upsert_map m p q) ∅ (merge_concat S D) !! p
  = foldl (λ m '(p, q), upsert_map m p q) ∅ (S ++ D) !! p.
Proof.
  rewrite !foldl_upsert_lookup, lookup_empty.
  unfold merge_concat. rewrite !batch_map_app, !lookup_union.
  destruct (decide (p ∈ D.*1)) as [Hp|Hp].
  - apply batch_map_dom in Hp as [q ->]. cbn.
    by destruct (batch_map S !! p), (batch_map (filter _ S) !! p).
  - by rewrite batch_map_keep.
Qed.

(** C5: applying [apply_snapshot S] and then [apply_diff D] leaves the same
    book as one [apply_snapshot] of the level-by-level merge of [S] and [D]
    (as a mapping, or as the list of [S]'s untouched entries followed by
    [D]); all three return normally. *)
Theorem C5_snapshot_then_diff (Sb Sa Db Da : Levels) (b : OrderBook) :
  ∃ b', (apply_snapshot Sb Sa ;;; apply_diff Db Da) b = (Return (), b') ∧
        apply_snapshot (merge_levels Sb Db) (merge_levels Sa Da) b = (Return (), b') ∧
        apply_snapshot (merge_concat Sb Db) (merge_concat Sa Da) b = (Return (), b').
Proof.
  destruct (apply_snapshot_ok Sb Sa b) as (b1 & E1 & Hok1 & Hb1 & Ha1).
  destruct (apply_diff_ok Db Da b1 Hok1) as (b2 & E2 & Hok2 & Hb2 & Ha2).
  rewrite Hb1, <-foldl_app in Hb2. rewrite Ha1, <-foldl_app in Ha2.
  exists b2. split_and!.
  - unfold bind. by rewrite E1.
  - destruct (apply_snapshot_ok (merge_levels Sb Db) (merge_levels Sa Da) b)
      as (b3 & E3 & Hok3 & Hb3 & Ha3).
    rewrite E3. f_equal. apply book_ok_ext; [done|done| |].
    + rewrite Hb3, Hb2. apply map_eq, merge_levels_lookup.
    + rewrite Ha3, Ha2. apply map_eq, merge_levels_lookup.
  - destruct (apply_snapshot_ok (merge_concat Sb Db) (merge_concat Sa Da) b)
      as (b3 & E3 & Hok3 & Hb3 & Ha3).
    rewrite E3. f_equal. apply book_ok_ext; [done|done| |].
    + rewrite Hb3, Hb2. apply map_eq, merge_concat_lookup.
    + rewrite Ha3, Ha2. apply map_eq, merge_concat_lookup.
Qed.

(** ** C1: the crossing loop *)

Lemma py_min_qmin a b : py_min a b = qmin a b.
Proof.
  unfold py_min, qmin. destruct (ltb b a) eqn:Hc; case_decide as Hd; try done.
  - apply ltb_true in Hc. qc_arith.
  - apply ltb_false in Hc. qc_arith.
Qed.

Lemma update_level_replace sb p q' v :
  qty sb !! p = Some v → 0 < q' →
  update_level p q' sb
  = (Return (), mkSide (is_ask sb) (prices sb) (<[p := q']> (qty sb))).
Proof.
  intros Hv Hq. apply leb_false in Hq. unfold update_level. by rewrite Hq, Hv.
Qed.

Lemma update_level_pop sb p ps q' v :
  prices sb = p :: ps → qty sb !! p = Some v → q' ≤ 0 →
  update_level p q' sb = (Return (), mkSide (is_ask sb) ps (delete p (qty sb))).
Proof.
  intros Hps Hv Hq. apply leb_true in Hq. unfold update_level.
  rewrite Hq, Hv, Hps. cbn. by rewrite decide_True.
Qed.

Lemma levels_ext a a' (ps : list Qc) (m m' : gmap Qc Qc) :
  (∀ x, x ∈ ps → m' !! x = m !! x) →
  levels (mkSide a' ps m') = levels (mkSide a ps m).
Proof.
  intros H. unfold levels. cbn. apply list_fmap_ext.
  intros i x Hx. rewrite H; [done|]. by eapply list_elem_of_lookup_2.
Qed.

Lemma update_level_side_ok sb p q sb' :
  side_ok sb → update_level p q sb = (Return (), sb') → side_ok sb'.
Proof.
  intros Hok E. destruct (update_level_ok sb p q Hok) as (sb2 & E2 & Hok2 & _).
  congruence.
Qed.

Lemma take_level_ok sb p ps q rem :
  side_ok sb → prices sb = p :: ps → qty sb !! p = Some q → tolerance < rem →
  ∃ sb', take_level p q (py_min q rem) sb = (Return (), sb') ∧
    side_ok sb' ∧ is_ask sb' = is_ask sb ∧
    levels sb' = (if decide (q - qmin q rem ≤ tolerance) then tail (levels sb)
                  else (p, q - qmin q rem) :: tail (levels sb)) ∧
    (prices sb' = ps ∨ rem - qmin q rem ≤ tolerance).
Proof.
  intros Hok Hps Hq Hrem.
  assert (0 < q) as Hqpos by (by eapply (ok_pos sb Hok)).
  assert (p ∉ ps) as Hnin.
  { pose proof (sorted_NoDup _ _ (ok_sorted sb Hok)) as Hnd.
    rewrite Hps in Hnd. by apply NoDup_cons in Hnd as [? _]. }
  assert (levels sb = (p, q) :: levels (mkSide (is_ask sb) ps (qty sb))) as Hlv.
  { unfold levels. rewrite Hps. cbn. by rewrite Hq. }
  pose proof tolerance_pos as Htol.
  rewrite py_min_qmin. unfold take_level, bind.
  unfold qmin. case_decide as Hmin.
  - (* the whole level is taken *)
    assert (q - q ≤ 0) as Hz by qc_arith.
    pose proof (update_level_pop sb p ps (q - q) q Hps Hq Hz) as E.
    rewrite E. cbn. rewrite lookup_delete_eq.
    eexists. split; [done|]. split_and!; [by eapply update_level_side_ok|done| |by left].
    rewrite decide_True by qc_arith. rewrite Hlv. cbn [tail].
    apply levels_ext. intros x Hx. apply lookup_delete_ne. by intros ->.
  - (* the order is exhausted inside the level *)
    assert (0 < q - rem) as Hpos by qc_arith.
    pose proof (update_level_replace sb p (q - rem) q Hq Hpos) as E.
    rewrite E. cbn. rewrite lookup_insert_eq.
    pose proof (update_level_side_ok _ _ _ _ Hok E) as Hok1.
    destruct (leb (q - rem) tolerance) eqn:Hc.
    + apply leb_true in Hc.
      set (sb1 := mkSide (is_ask sb) (prices sb) (<[p:=q - rem]> (qty sb))) in *.
      assert (update_level p 0 sb1
              = (Return (), mkSide (is_ask sb1) ps (delete p (qty sb1)))) as E1.
      { apply (update_level_pop sb1 p ps 0 (q - rem)); [done| |done].
        apply lookup_insert_eq. }
      rewrite E1. eexists. split; [done|].
      split_and!; [by eapply update_level_side_ok|done| |by left].
      rewrite decide_True by done. rewrite Hlv. cbn [tail].
      apply levels_ext. intros x Hx. cbn.
      rewrite lookup_delete_ne by (by intros ->).
      apply lookup_insert_ne. by intros ->.
    + apply leb_false in Hc. eexists. split; [done|].
      split_and!; [done|done| |right; qc_arith].
      rewrite decide_False by qc_arith. rewrite Hlv. cbn [tail].
      unfold levels at 1. cbn. rewrite Hps. cbn. rewrite lookup_insert_eq. f_equal.
      apply list_fmap_ext. intros i x Hx.
      rewrite lookup_insert_ne; [done|]. intros ->. apply Hnin.
      by eapply list_elem_of_lookup_2.
Qed.

Lemma cross_loop_stop mb fuel rem sb :
  rem ≤ tolerance → cross_loop mb fuel rem sb = (Return rem, sb).
Proof.
  intros Hr. apply ltb_false in Hr.
  destruct fuel; cbn; destruct (prices sb); by rewrite ?Hr, ?andb_false_r.
Qed.

Section crossing.
Variable mb : Qc → bool.
Variable mk : Qc → Prop.
Hypothesis mb_mk : ∀ p, mb p = true ↔ mk p.

Lemma cross_loop_ok fuel : ∀ sb rem,
  side_ok sb → (length (prices sb) < fuel)%nat →
  ∃ sb' rem', cross_loop mb fuel rem sb = (Return rem', sb') ∧
    side_ok sb' ∧ is_ask sb' = is_ask sb ∧
    rtc (cross_step mk) (levels sb, rem) (levels sb', rem') ∧
    cross_done mk (levels sb', rem').
Proof.
  induction fuel as [|fuel IH]; intros sb rem Hok Hfuel; [lia|].
  cbn [cross_loop]. destruct (prices sb) as [|p ps] eqn:Hps.
  - exists sb, rem. split_and!; [done|done|done|done|].
    unfold cross_done, levels. by rewrite Hps.
  - destruct (mb p && ltb tolerance rem) eqn:Hc.
    + apply andb_true_iff in Hc as [Hp%mb_mk Hrem%ltb_true].
      destruct (proj1 (ok_keys sb Hok p)) as [q Hq]; [rewrite Hps; set_solver|].
      rewrite Hq.
      destruct (take_level_ok sb p ps q rem Hok Hps Hq Hrem)
        as (sb1 & E1 & Hok1 & Ha1 & Hlv1 & Hcases).
      unfold bind. rewrite E1.
      assert (cross_step mk (levels sb, rem) (levels sb1, rem - py_min q rem)) as Hstep.
      { rewrite Hlv1, py_min_qmin.
        assert (levels sb = (p, q) :: tail (levels sb)) as ->.
        { unfold levels. rewrite Hps. cbn. by rewrite Hq. }
        cbn [tail]. by constructor. }
      destruct Hcases as [Hps1|Hstop].
      * destruct (IH sb1 (rem - py_min q rem) Hok1) as (sb' & rem' & E & Hok' & Ha' & Hrtc & Hd).
        { rewrite Hps1. cbn in Hfuel. lia. }
        exists sb', rem'. split_and!; [done|done|congruence| |done].
        by eapply rtc_l.
      * rewrite <-py_min_qmin in Hstop. rewrite cross_loop_stop by done.
        eexists _, _. split_and!; [done|done|done|by apply rtc_once|].
        unfold cross_done. cbn. destruct (levels sb1) as [|[p1 q1] l1]; [done|by right].
    + exists sb, rem. split_and!; [done|done|done|done|].
      unfold cross_done, levels. rewrite Hps. cbn.
      apply andb_false_iff in Hc as [Hc|Hc].
      * left. rewrite <-mb_mk. by rewrite Hc.
      * right. by apply ltb_false.
Qed.
End crossing.

Lemma lookup_all_ok (m : gmap Qc Qc) (ps : list Qc) :
  (∀ p, p ∈ ps → is_Some (m !! p)) →
  lookup_all m ps = Return ((λ p, (p, default 0 (m !! p))) <$> ps).
Proof.
  induction ps as [|p ps IH]; intros H; [done|].
  cbn. destruct (H p) as [v Hv]; [set_solver|]. rewrite Hv.
  rewrite IH; [done|]. intros x Hx. apply H. set_solver.
Qed.

Lemma best_n_ok sb n : side_ok sb → best_n sb n = Return (take n (levels sb)).
Proof.
  intros Hok. unfold best_n, levels. rewrite lookup_all_ok; [by rewrite fmap_take|].
  intros p Hp. apply (ok_keys sb Hok). by eapply subseteq_take.
Qed.

Lemma top10_ok b :
  book_ok b → top10 b = Return (mkTop (take 10 (levels (bids b))) (take 10 (levels (asks b)))).
Proof.
  intros (Hb & Ha & _). unfold top10. by rewrite !best_n_ok.
Qed.

Lemma residual_update own price rem :
  side_ok own → tolerance < rem →
  ∃ own', update_level price (default 0 (qty own !! price) + rem) own = (Return (), own') ∧
    side_ok own' ∧ is_ask own' = is_ask own ∧
    qty own' = <[price := default 0 (qty own !! price) + rem]> (qty own).
Proof.
  intros Hok Hrem.
  destruct (update_level_ok own price (default 0 (qty own !! price) + rem) Hok)
    as (own' & E & Hok' & Ha & Hq).
  exists own'. split_and!; [done|done|done|].
  rewrite Hq. unfold upsert_map.
  assert (0 ≤ default 0 (qty own !! price)) as Hex.
  { destruct (qty own !! price) as [v|] eqn:Hv; cbn; [|done].
    apply Qclt_le_weak. by eapply (ok_pos own Hok). }
  pose proof tolerance_pos.
  assert (0 < default 0 (qty own !! price) + rem) as Hpos%leb_false.
  { generalize dependent (default 0 (qty own !! price)). intros e **. qc_arith. }
  by rewrite Hpos.
Qed.

Lemma place_buy_ok (b : OrderBook) (side : string) (P Q : Qc) (fuel : nat) :
  book_ok b → tolerance < Q → lower side ∈ ["buy"; "bid"]%string →
  (length (prices (asks b)) < fuel)%nat →
  ∃ top b', place_limit_order fuel side P Q b = (Return top, b') ∧
    book_ok b' ∧ top10 b' = Return top ∧
    crosses (λ p, p ≤ P) (asks b) (asks b') (bids b) (bids b') P Q.
Proof.
  intros (Hb & Ha & Hfb & Hfa) HQ Hside Hfuel.
  pose proof tolerance_pos as Htol.
  assert (leb Q 0 = false) as HQ0 by (apply leb_false; qc_arith).
  unfold place_limit_order. rewrite HQ0, bool_decide_eq_true_2 by done.
  destruct (cross_loop_ok (λ p, leb p P) (λ p, p ≤ P) (λ p, leb_true p P)
              fuel (asks b) Q Ha Hfuel) as (sa & rem & E & Hoka & Haa & Hrtc & Hdone).
  unfold bind at 1. unfold on_asks. rewrite E.
  unfold bind, rest_residual, reads. destruct (ltb tolerance rem) eqn:Hrem.
  - apply ltb_true in Hrem.
    destruct (residual_update (bids b) P rem Hb Hrem) as (sb & Eb & Hokb & Hab & Hqb).
    unfold on_bids. cbn. rewrite Eb.
    assert (book_ok (mkBook sb sa)) as Hok' by (split_and!; cbn; congruence).
    eexists _, _. split; [by rewrite top10_ok|]. split_and!; [done|by rewrite top10_ok|].
    exists rem. split_and!; [done|done|]. unfold residual_rests. by rewrite decide_True.
  - apply ltb_false in Hrem. cbn.
    assert (book_ok (mkBook (bids b) sa)) as Hok' by (split_and!; cbn; congruence).
    eexists _, _. split; [by rewrite top10_ok|]. split_and!; [done|by rewrite top10_ok|].
    exists rem. split_and!; [done|done|]. unfold residual_rests.
    rewrite decide_False; [done|]. by apply Qcle_ngt.
Qed.

Lemma sell_not_buy (s : string) :
  s ∈ ["sell"; "ask"]%string → bool_decide (s ∈ ["buy"; "bid"]%string) = false.
Proof.
  intros Hs. apply bool_decide_eq_false. intros Hb.
  repeat (apply elem_of_cons in Hs as [->|Hs]);
    repeat (apply elem_of_cons in Hb as [Hb|Hb]); try discriminate;
    by apply elem_of_nil in Hs || by apply elem_of_nil in Hb.
Qed.

Lemma place_sell_ok (b : OrderBook) (side : string) (P Q : Qc) (fuel : nat) :
  book_ok b → tolerance < Q → lower side ∈ ["sell"; "ask"]%string →
  (length (prices (bids b)) < fuel)%nat →
  ∃ top b', place_limit_order fuel side P Q b = (Return top, b') ∧
    book_ok b' ∧ top10 b' = Return top ∧
    crosses (λ p, P ≤ p) (bids b) (bids b') (asks b) (asks b') P Q.
Proof.
  intros (Hb & Ha & Hfb & Hfa) HQ Hside Hfuel.
  pose proof tolerance_pos as Htol.
  assert (leb Q 0 = false) as HQ0 by (apply leb_false; qc_arith).
  unfold place_limit_order.
  rewrite HQ0, (sell_not_buy _ Hside), bool_decide_eq_true_2 by done.
  destruct (cross_loop_ok (λ p, leb P p) (λ p, P ≤ p) (λ p, leb_true P p)
              fuel (bids b) Q Hb Hfuel) as (sb & rem & E & Hokb & Hab & Hrtc & Hdone).
  unfold bind at 1. unfold on_bids. rewrite E.
  unfold bind, rest_residual, reads. destruct (ltb tolerance rem) eqn:Hrem.
  - apply ltb_true in Hrem.
    destruct (residual_update (asks b) P rem Ha Hrem) as (sa & Ea & Hoka & Haa & Hqa).
    unfold on_asks. cbn. rewrite Ea.
    assert (book_ok (mkBook sb sa)) as Hok' by (split_and!; cbn; congruence).
    eexists _, _. split; [by rewrite top10_ok|]. split_and!; [done|by rewrite top10_ok|].
    exists rem. split_and!; [done|done|]. unfold residual_rests. by rewrite decide_True.
  - apply ltb_false in Hrem. cbn.
    assert (book_ok (mkBook sb (asks b))) as Hok' by (split_and!; cbn; congruence).
    eexists _, _. split; [by rewrite top10_ok|]. split_and!; [done|by rewrite top10_ok|].
    exists rem. split_and!; [done|done|]. unfold residual_rests.
    rewrite decide_False; [done|]. by apply Qcle_ngt.
Qed.




(** ** C6: replaying the stream up to a horizon *)

Lemma replay_diffs (symbol : string) (h : Qc) (file : list Row) : ∀ b,
  replay symbol h file true b
  = for_each (λ r, apply_diff (row_bids r) (row_asks r))
             (applied_until h (qualifying symbol file)) b.
Proof.
  induction file as [|r file IH]; intros b; [done|].
  cbn [replay]. unfold qualifying in *. rewrite filter_cons.
  destruct (decide (row_symbol r = symbol)) as [Hs|Hs].
  - rewrite bool_decide_eq_false_2 by (by intros ?). cbn [negb applied_until].
    unfold leb. destruct (decide (h ≤ row_time r)) as [Hh|Hh].
    + rewrite bool_decide_eq_true_2 by done. cbn [for_each]. done.
    + rewrite bool_decide_eq_false_2 by done. cbn [for_each]. unfold bind.
      destruct (apply_diff _ _ b) as [[[]|ex|] b1]; [apply IH|done|done].
  - rewrite bool_decide_eq_true_2 by done. apply IH.
Qed.

Lemma replay_refines (symbol : string) (h : Qc) (file : list Row) : ∀ b,
  replay symbol h file false b
  = replay_spec (applied_until h (qualifying symbol file)) b.
Proof.
  induction file as [|r file IH]; intros b; [done|].
  cbn [replay]. unfold qualifying in *. rewrite filter_cons.
  destruct (decide (row_symbol r = symbol)) as [Hs|Hs].
  - rewrite bool_decide_eq_false_2 by (by intros ?). cbn [negb applied_until].
    unfold leb. destruct (decide (h ≤ row_time r)) as [Hh|Hh].
    + rewrite bool_decide_eq_true_2 by done. cbn [replay_spec for_each]. done.
    + rewrite bool_decide_eq_false_2 by done. cbn [replay_spec]. unfold bind.
      destruct (apply_snapshot _ _ b) as [[[]|ex|] b1]; [|done|done].
      apply replay_diffs.
  - rewrite bool_decide_eq_true_2 by done. apply IH.
Qed.

Lemma diffs_ok (rows : list Row) : ∀ b,
  book_ok b →
  ∃ b', for_each (λ r, apply_diff (row_bids r) (row_asks r)) rows b = (Return (), b') ∧
        book_ok b'.
Proof.
  induction rows as [|r rows IH]; intros b Hok; [by exists b|].
  destruct (apply_diff_ok (row_bids r) (row_asks r) b Hok) as (b1 & E1 & Hok1 & _).
  destruct (IH b1 Hok1) as (b2 & E2 & Hok2).
  exists b2. split; [|done]. cbn [for_each]. unfold bind. by rewrite E1.
Qed.

Lemma replay_spec_ok (rows : list Row) (b : OrderBook) :
  ∃ b', replay_spec rows b = (Return (), b') ∧ (rows ≠ [] → book_ok b').
Proof.
  destruct rows as [|r rows]; [by exists b|].
  destruct (apply_snapshot_ok (row_bids r) (row_asks r) b) as (b1 & E1 & Hok1 & _).
  destruct (diffs_ok rows b1 Hok1) as (b2 & E2 & Hok2).
  exists b2. split; [|done]. cbn [replay_spec]. unfold bind. by rewrite E1.
Qed.

Lemma book_lookup (symbol : string) (e : Engine) :
  ∃ l e1, _book symbol e = (Return l, e1) ∧ books e1 !! symbol = Some l ∧
          deref e1 l = book_before e symbol ∧
          (∀ s, s ≠ symbol → books e1 !! s = books e !! s).
Proof.
  unfold _book, book_before. destruct (books e !! symbol) as [l|] eqn:Hl.
  - by exists l, e.
  - eexists _, _. split; [done|]. cbn. split_and!.
    + apply lookup_insert_eq.
    + unfold deref. cbn. by rewrite lookup_insert_eq.
    + intros s Hs. by apply lookup_insert_ne.
Qed.

Lemma qualifying_cons_eq symbol t bs as_ file :
  qualifying symbol (mkRow symbol t bs as_ :: file)
  = mkRow symbol t bs as_ :: qualifying symbol file.
Proof. unfold qualifying. by rewrite filter_cons_True. Qed.

Lemma qualifying_cons_ne symbol other t bs as_ file :
  other ≠ symbol →
  qualifying symbol (mkRow other t bs as_ :: file) = qualifying symbol file.
Proof. intros. unfold qualifying. by rewrite filter_cons_False. Qed.

Lemma applied_until_later h r rows :
  row_time r < h → applied_until h (r :: rows) = r :: applied_until h rows.
Proof. intros Hlt. cbn. rewrite decide_False; [done|]. by apply Qclt_nge. Qed.

Lemma applied_until_stop h r rows :
  h ≤ row_time r → applied_until h (r :: rows) = [r].
Proof. intros Hle. cbn. by rewrite decide_True. Qed.

Lemma build_until_refines (file : list Row) (symbol : string) (h : Qc) (e : Engine) :
  ∃ l b' e',
    replay_spec (applied_until h (qualifying symbol file)) (book_before e symbol)
      = (Return (), b') ∧
    build_until file symbol h e = (top10 b', e') ∧
    books e' !! symbol = Some l ∧ heap e' !! l = Some b' ∧
    (qualifying symbol file ≠ [] →
       book_ok b' ∧
       top10 b' = Return (mkTop (take 10 (levels (bids b'))) (take 10 (levels (asks b'))))).
Proof.
  destruct (book_lookup symbol e) as (l & e1 & El & Hl & Hd & _).
  destruct (replay_spec_ok (applied_until h (qualifying symbol file))
              (book_before e symbol)) as (b' & E & Hok).
  exists l, b'. eexists. split; [done|].
  unfold build_until, bind at 1. rewrite El. unfold on_book, bind, reads.
  rewrite replay_refines, Hd, E. split_and!; [done|done|cbn; by rewrite lookup_insert_eq|].
  intros Hq. assert (book_ok b') as Hb.
  { apply Hok. destruct (qualifying symbol file) as [|r rs]; [done|].
    cbn. by case_decide. }
  split; [done|]. by apply top10_ok.
Qed.

(** C6: [build_until] returns normally.  The book of the symbol (the
    registered one, or a new one) goes through the qualifying records up to
    and including the first whose timestamp is [>= h] (or all of them), the
    first as a snapshot and the later ones as diffs; the result is its
    [top10].  With qualifying records at timestamps 1, 2, 3, 5 and horizon
    4, all four are applied, the one at 5 included, and a later record is
    not. *)
Theorem C6_build_until :
  (∀ file symbol h e,
     ∃ l b' e',
       replay_spec (applied_until h (qualifying symbol file)) (book_before e symbol)
         = (Return (), b') ∧
       build_until file symbol h e = (top10 b', e') ∧
       books e' !! symbol = Some l ∧ heap e' !! l = Some b' ∧
       (qualifying symbol file ≠ [] →
          book_ok b' ∧
          top10 b' = Return (mkTop (take 10 (levels (bids b'))) (take 10 (levels (asks b')))))) ∧
  (∀ symbol other b1 a1 b2 a2 b3 a3 b5 a5 b6 a6 bo ao,
     other ≠ symbol →
     applied_until (dec 4 1)
       (qualifying symbol
          [mkRow symbol (dec 1 1) b1 a1; mkRow other (dec 1 1) bo ao;
           mkRow symbol (dec 2 1) b2 a2; mkRow symbol (dec 3 1) b3 a3;
           mkRow symbol (dec 5 1) b5 a5; mkRow symbol (dec 6 1) b6 a6])
     = [mkRow symbol (dec 1 1) b1 a1; mkRow symbol (dec 2 1) b2 a2;
        mkRow symbol (dec 3 1) b3 a3; mkRow symbol (dec 5 1) b5 a5]).
Proof.
  split.
  - apply build_until_refines.
  - intros symbol other b1 a1 b2 a2 b3 a3 b5 a5 b6 a6 bo ao Hne.
    rewrite !qualifying_cons_eq, qualifying_cons_ne, !qualifying_cons_eq by done.
    rewrite !applied_until_later by compute_done.
    by rewrite applied_until_stop by compute_done.
Qed.

Lemma C6_build_until_witness :
  applied_until (dec 4 1)
    (qualifying "BTC/USD"
       [mkRow "BTC/USD" (dec 1 1) [(dec 99 1, dec 1 1)] [(dec 101 1, dec 1 1)];
        mkRow "ETH/USD" (dec 1 1) [] [];
        mkRow "BTC/USD" (dec 2 1) [] []; mkRow "BTC/USD" (dec 3 1) [] [];
        mkRow "BTC/USD" (dec 5 1) [(dec 99 1, 0)] []; mkRow "BTC/USD" (dec 6 1) [] []])
  = [mkRow "BTC/USD" (dec 1 1) [(dec 99 1, dec 1 1)] [(dec 101 1, dec 1 1)];
     mkRow "BTC/USD" (dec 2 1) [] []; mkRow "BTC/USD" (dec 3 1) [] [];
     mkRow "BTC/USD" (dec 5 1) [(dec 99 1, 0)] []].
Proof.
  apply (proj2 C6_build_until "BTC/USD" "ETH/USD"). discriminate.
Defined.

(** ** C7, C8, C10: side tokens and non-positive quantities *)

Lemma bad_token_branches (s : string) :
  s ∉ order_tokens →
  bool_decide (s ∈ ["buy"; "bid"]%string) = false ∧
  bool_decide (s ∈ ["sell"; "ask"]%string) = false.
Proof.
  unfold order_tokens. intros Hs.
  split; apply bool_decide_eq_false; intros Hin; apply Hs; set_solver.
Qed.

(** C7, as stated, fails: the quantity test comes before the side test, so
    with quantity 0 an unrecognized token returns the current top levels
    instead of raising. *)
Lemma C7_counterexample :
(lower "hold" ∉ order_tokens) ∧
  place_limit_order 3 "hold" (dec 100 1) 0 crossing_example
  = (Return (mkTop [] [(dec 100 1, dec 2 1); (dec 101 1, dec 3 1)]), crossing_example).
Proof. split; compute_done. Qed.

(** C7 (amended): for every book, price and quantity [> 0], a side token
    whose lower-case form is none of buy, bid, sell, ask makes
    [place_limit_order] raise [ValueError]. *)
Theorem C7_bad_token_raises (b : OrderBook) (side : string) (P Q : Qc) (fuel : nat) :
  0 < Q → lower side ∉ order_tokens →
  (place_limit_order fuel side P Q b).1 = Raise ValueError.
Proof.
  intros HQ%leb_false [Hb Hs]%bad_token_branches.
  unfold place_limit_order. by rewrite HQ, Hb, Hs.
Qed.

Lemma C7_bad_token_raises_witness :
  (place_limit_order 0 "Hold" (dec 100 1) (dec 1 1) crossing_example).1 = Raise ValueError.
Proof. apply C7_bad_token_raises; compute_done. Defined.

(** C8: for every book, side token and price, [place_limit_order] with a
    quantity [<= 0] returns the [top10] of the book as it is and leaves the
    book unchanged; on a book that satisfies the invariant this is a normal
    return of the first ten levels of each side, not an error. *)
Theorem C8_nonpositive_quantity (b : OrderBook) (side : string) (P Q : Qc) (fuel : nat) :
  Q ≤ 0 →
  place_limit_order fuel side P Q b = (top10 b, b) ∧
  (book_ok b →
   top10 b = Return (mkTop (take 10 (levels (bids b))) (take 10 (levels (asks b))))).
Proof.
  intros HQ%leb_true. split; [|apply top10_ok].
  unfold place_limit_order. by rewrite HQ.
Qed.

Lemma C8_nonpositive_quantity_witness :
  place_limit_order 0 "sideways" (dec 100 1) (- dec 1 1) crossing_example
  = (Return (mkTop [] [(dec 100 1, dec 2 1); (dec 101 1, dec 3 1)]), crossing_example).
Proof.
  destruct (C8_nonpositive_quantity crossing_example "sideways" (dec 100 1) (- dec 1 1) 0)
    as [-> _]; compute_done.
Defined.

(** C10: for every book, price and quantity [> 0], when the side token is
    not recognized [place_limit_order] raises [ValueError] and the book it
    leaves behind is the book it was given: nothing was changed before the
    error. *)
Theorem C10_bad_token_atomic (b : OrderBook) (side : string) (P Q : Qc) (fuel : nat) :
  0 < Q → lower side ∉ order_tokens →
  place_limit_order fuel side P Q b = (Raise ValueError, b).
Proof.
  intros HQ%leb_false [Hb Hs]%bad_token_branches.
  unfold place_limit_order. by rewrite HQ, Hb, Hs.
Qed.

Lemma C10_bad_token_atomic_witness :
  place_limit_order 5 "long" (dec 1005 10) (dec 4 1) crossing_example
  = (Raise ValueError, crossing_example).
Proof. apply C10_bad_token_atomic; compute_done. Defined.

(** ** C9: handing out the book of a symbol *)

(** C9, as stated, fails: for a symbol that is not registered [expose]
    returns [None]; it does not raise. *)
Lemma C9_counterexample :
  books new_engine !! "BTC/USD"%string = None ∧
  expose new_engine "BTC/USD" = Return None ∧
  ¬ ∃ ex, expose new_engine "BTC/USD" = Raise ex.
Proof. split_and!; [done|done|]. by intros [ex ?]. Qed.

(** C9 (amended): [expose] never raises.  For a registered symbol it
    returns the reference the registry holds, so a mutation made through
    that reference is seen by the next [expose]; for a symbol that is not
    registered it returns [None].  A symbol is registered from the first
    [build_until] for it, even when the stream holds no record for it. *)
Theorem C9_expose :
  (∀ e symbol, expose e symbol = Return (books e !! symbol)) ∧
  (∀ A e symbol l (m : M OrderBook A),
     books e !! symbol = Some l →
     expose (on_book l m e).2 symbol = Return (Some l) ∧
     deref (on_book l m e).2 l = (m (deref e l)).2) ∧
  (∀ file symbol h e,
     ∃ l, expose (build_until file symbol h e).2 symbol = Return (Some l)) ∧
  (∀ symbol h,
     ∃ l, expose (build_until [] symbol h new_engine).2 symbol = Return (Some l) ∧
          deref (build_until [] symbol h new_engine).2 l = new_book).
Proof.
  split_and!.
  - done.
  - intros A e symbol l m Hl. unfold on_book, expose, deref.
    destruct (m _) as [r b]. cbn. by rewrite Hl, lookup_insert_eq.
  - intros file symbol h e.
    destruct (build_until_refines file symbol h e) as (l & b' & e' & _ & E & Hl & _).
    exists l. rewrite E. unfold expose. cbn. by rewrite Hl.
  - intros symbol h.
    destruct (build_until_refines [] symbol h new_engine) as (l & b' & e' & Eb & E & Hl & Hh & _).
    exists l. rewrite E. unfold expose, deref. cbn. rewrite Hl, Hh. split; [done|].
    cbn in Eb. by injection Eb as <-.
Qed.

Lemma C9_expose_witness :
  let e := (build_until [] "BTC/USD" 0 new_engine).2 in
  ∃ l, books e !! "BTC/USD"%string = Some l ∧
       expose (on_book l (place_limit_order 1 "buy" (dec 100 1) (dec 2 1)) e).2 "BTC/USD"
         = Return (Some l) ∧
       deref (on_book l (place_limit_order 1 "buy" (dec 100 1) (dec 2 1)) e).2 l
         = mkBook (side_of false [(dec 100 1, dec 2 1)]) (new_side true).
Proof.
  cbn zeta. exists (fresh (∅ : gset loc)).
  assert (books (build_until [] "BTC/USD" 0 new_engine).2 !! "BTC/USD"%string
          = Some (fresh (∅ : gset loc))) as Hl by compute_done.
  split; [exact Hl|].
  destruct (proj1 (proj2 C9_expose) _ _ _ _
              (place_limit_order 1 "buy" (dec 100 1) (dec 2 1)) Hl) as [-> ->].
  split; [done|]. compute_done.
Defined.

(** * Further properties of the code *)

(** ** [SideBook.update_level] and [SideBook._key_index] on arbitrary sides *)

Lemma list_index_middle (x : Qc) (l1 l2 : list Qc) :
  x ∉ l1 → list_index x (l1 ++ x :: l2) = Some (length l1).
Proof.
  induction l1 as [|y l1 IH]; intros Hx; cbn.
  - by rewrite decide_True.
  - rewrite decide_False by set_solver. rewrite IH by set_solver. done.
Qed.

Lemma list_index_absent (x : Qc) (l : list Qc) : x ∉ l → list_index x l = None.
Proof.
  induction l as [|y l IH]; intros Hx; cbn; [done|].
  rewrite decide_False by set_solver. rewrite IH by set_solver. done.
Qed.

Lemma list_index_present (x : Qc) (l : list Qc) i :
  list_index x l = Some i → l !! i = Some x.
Proof.
  revert i. induction l as [|y l IH]; intros i; cbn; [done|].
  case_decide as Hy; [by intros [= <-]; subst|].
  destruct (list_index x l) as [j|]; cbn; [|done]. intros [= <-]. by apply IH.
Qed.

(** Upserting the same level twice is the same as upserting it once, in
    every state of the side, including the states in which the call raises. *)
Theorem update_level_idempotent (sb : SideBook) (p q : Qc) :
  (update_level p q ;;; update_level p q) sb = update_level p q sb.
Proof.
  unfold bind, update_level. destruct (leb q 0) eqn:Hq.
  - destruct (qty sb !! p) as [v|] eqn:Hv; [|by rewrite Hv].
    destruct (list_index p (prices sb)) as [i|]; [|done].
    cbn. by rewrite lookup_delete_eq.
  - destruct (qty sb !! p) as [v|] eqn:Hv; cbn.
    + by rewrite lookup_insert_eq, insert_insert_eq.
    + by rewrite lookup_insert_eq, insert_insert_eq.
Qed.

(** Inserting a level at a price the side does not hold and then removing
    it gives back the very same side: the price list and the dictionary are
    restored. *)
Theorem update_level_insert_remove (sb : SideBook) (p q q' : Qc) :
  p ∉ prices sb → qty sb !! p = None → 0 < q → q' ≤ 0 →
  (update_level p q ;;; update_level p q') sb = (Return (), sb).
Proof.
  intros Hnin Hnone Hq%leb_false Hq'%leb_true.
  unfold bind. unfold update_level at 1. rewrite Hq, Hnone.
  unfold update_level. rewrite Hq'. cbn. rewrite lookup_insert_eq.
  unfold list_insert_at.
  rewrite list_index_middle by (intros Hin; apply Hnin; by eapply subseteq_take).
  rewrite delete_middle, take_drop, delete_insert_eq, delete_id by done.
  by destruct sb.
Qed.

Lemma update_level_insert_remove_witness :
  let sb := side_of false [(dec 101 1, dec 2 1); (dec 99 1, dec 1 1)] in
  (update_level (dec 100 1) (dec 5 1) ;;; update_level (dec 100 1) 0) sb = (Return (), sb).
Proof. cbn zeta. apply update_level_insert_remove; compute_done. Defined.

(** [update_level] raises exactly when it is asked to remove a price that
    is a key of the dictionary but is missing from the price list; the
    exception is [ValueError] and the side is left as it was. *)
Theorem update_level_raises_iff (sb : SideBook) (p q : Qc) :
  ((∃ ex, (update_level p q sb).1 = Raise ex) ↔
   q ≤ 0 ∧ is_Some (qty sb !! p) ∧ p ∉ prices sb) ∧
  (∀ ex, (update_level p q sb).1 = Raise ex →
         update_level p q sb = (Raise ValueError, sb)) ∧
  (update_level p q sb).1 ≠ OutOfFuel.
Proof.
  unfold update_level. destruct (leb q 0) eqn:Hq.
  - apply leb_true in Hq. destruct (qty sb !! p) as [v|] eqn:Hv.
    + destruct (list_index p (prices sb)) as [i|] eqn:Hi; cbn.
      * split_and!; [|done|done]. split; [by intros [? ?]|].
        intros (_ & _ & Hn). apply list_index_absent in Hn. congruence.
      * split_and!; [|done|done]. split; [|by eauto]. intros _.
        split_and!; [done|by eauto|]. intros Hin.
        apply list_index_elem in Hin as (? & ? & _ & ?). congruence.
    + cbn. split_and!; [|done|done]. split; [by intros [? ?]|].
      by intros (_ & [? ?] & _).
  - apply leb_false in Hq.
    destruct (qty sb !! p); cbn; (split_and!; [|done|done]);
      (split; [by intros [? ?]|]); intros (Hle & _); qc_arith.
Qed.

(** Upserts at two different prices commute on a side that satisfies the
    invariant. *)
Theorem update_level_commute (sb : SideBook) (p1 q1 p2 q2 : Qc) :
  side_ok sb → p1 ≠ p2 →
  (update_level p1 q1 ;;; update_level p2 q2) sb
  = (update_level p2 q2 ;;; update_level p1 q1) sb.
Proof.
  intros Hok Hne.
  destruct (update_level_ok sb p1 q1 Hok) as (s1 & E1 & Hok1 & Ha1 & Hq1).
  destruct (update_level_ok s1 p2 q2 Hok1) as (s12 & E12 & Hok12 & Ha12 & Hq12).
  destruct (update_level_ok sb p2 q2 Hok) as (s2 & E2 & Hok2 & Ha2 & Hq2).
  destruct (update_level_ok s2 p1 q1 Hok2) as (s21 & E21 & Hok21 & Ha21 & Hq21).
  unfold bind. rewrite E1, E12, E2, E21. f_equal.
  apply side_ok_ext; [done|done|congruence|].
  rewrite Hq12, Hq1, Hq21, Hq2. unfold upsert_map.
  destruct (leb q1 0), (leb q2 0).
  - apply delete_delete.
  - by rewrite delete_insert_ne.
  - by rewrite delete_insert_ne.
  - by apply insert_insert_ne.
Qed.

Lemma update_level_commute_witness :
  let sb := side_of true [(dec 100 1, dec 1 1); (dec 102 1, dec 2 1)] in
  (update_level (dec 101 1) (dec 3 1) ;;; update_level (dec 100 1) 0) sb
  = (update_level (dec 100 1) 0 ;;; update_level (dec 101 1) (dec 3 1)) sb.
Proof. cbn zeta. apply update_level_commute; compute_done. Defined.

Lemma bisect_left_loop_bounds (l : list Qc) x fuel : ∀ lo hi,
  (lo ≤ hi)%nat → (lo ≤ bisect_left_loop fuel l x lo hi ≤ hi)%nat.
Proof.
  induction fuel as [|fuel IH]; intros lo hi Hle; cbn [bisect_left_loop]; [lia|].
  case_decide as Hlt; [|lia].
  assert (lo ≤ (lo + hi) / 2 < hi)%nat as Hm.
  { split; [apply Nat.div_le_lower_bound; lia | apply Nat.Div0.div_lt_upper_bound; lia]. }
  destruct (l !! _) as [y|]; [|lia].
  destruct (ltb y x).
  - specialize (IH (S ((lo + hi) / 2)%nat) hi). lia.
  - specialize (IH lo ((lo + hi) / 2)%nat). lia.
Qed.

Lemma key_index_le (sb : SideBook) (p : Qc) :
  (_key_index sb p ≤ length (prices sb))%nat.
Proof.
  unfold _key_index, bisect_left. destruct (is_ask sb).
  - apply bisect_left_loop_bounds. lia.
  - pose proof (bisect_left_loop_bounds ((λ p, - p) <$> prices sb) (- p)
                  (S (length ((λ p, - p) <$> prices sb))) 0
                  (length ((λ p, - p) <$> prices sb))) as H.
    pose proof (length_fmap (λ p, - p) (prices sb)) as Hlen. lia.
Qed.

(** On a side whose prices are strictly sorted in its direction,
    [_key_index] is the number of prices strictly better than the given one
    (lower for asks, higher for bids); if the price is already in the list,
    that is its position. *)
Theorem key_index_counts_better (sb : SideBook) (p : Qc) :
  StronglySorted (side_lt (is_ask sb)) (prices sb) →
  _key_index sb p = length (filter (λ y, side_lt (is_ask sb) y p) (prices sb)) ∧
  (p ∈ prices sb → prices sb !! _key_index sb p = Some p).
Proof.
  intros Hs. destruct (key_index_spec sb p Hs) as [Hl Hr].
  pose proof (key_index_le sb p) as Hle.
  split.
  - rewrite (filter_take_drop _ _ (_key_index sb p)); [by rewrite length_take_le| done |].
    eapply Forall_impl; [exact Hr|]. intros y Hy Hlt.
    destruct (is_ask sb); cbn in *; qc_arith.
  - intros Hin. rewrite <-(take_drop (_key_index sb p) (prices sb)) in Hin, Hs.
    apply elem_of_app in Hin as [Hin|Hin].
    { rewrite Forall_forall in Hl. by apply Hl, side_lt_irrefl in Hin. }
    apply StronglySorted_app in Hs as (_ & _ & Hs).
    rewrite <-(Nat.add_0_r (_key_index sb p)), <-lookup_drop.
    destruct (drop _ _) as [|y rest]; [by apply elem_of_nil in Hin|].
    apply Forall_cons in Hr as [Hy _]. apply StronglySorted_cons in Hs as [Hrest _].
    apply elem_of_cons in Hin as [->|Hin]; [done|].
    rewrite Forall_forall in Hrest. apply Hrest in Hin.
    exfalso. destruct (is_ask sb); cbn in *; qc_arith.
Qed.

Lemma key_index_counts_better_witness :
  let sb := side_of false [(dec 103 1, dec 1 1); (dec 101 1, dec 2 1); (dec 99 1, dec 5 1)] in
  StronglySorted (side_lt (is_ask sb)) (prices sb) ∧
  prices sb !! _key_index sb (dec 101 1) = Some (dec 101 1).
Proof.
  cbn zeta. split; [compute_done|].
  apply key_index_counts_better; compute_done.
Defined.

(** ** [SideBook.best_n] and [OrderBook.top10] *)

(** On a side that satisfies the invariant, [best_n n] returns normally the
    first [min n depth] levels in the order of the side, each with the
    positive quantity the dictionary holds for it. *)
Theorem best_n_levels (sb : SideBook) (n : nat) :
  side_ok sb →
  ∃ l, best_n sb n = Return l ∧
    length l = (n `min` length (prices sb))%nat ∧
    l.*1 = take n (prices sb) ∧
    StronglySorted (side_lt (is_ask sb)) l.*1 ∧
    ∀ p q, (p, q) ∈ l → qty sb !! p = Some q ∧ 0 < q.
Proof.
  intros Hok. exists (take n (levels sb)). split; [by apply best_n_ok|].
  unfold levels. rewrite <-fmap_take.
  assert (((λ p, (p, default 0 (qty sb !! p))) <$> take n (prices sb)).*1
          = take n (prices sb)) as Hfst.
  { rewrite <-list_fmap_compose. induction (take n (prices sb)) as [|x xs IHx]; [done|].
    cbn. by rewrite IHx. }
  split_and!.
  - by rewrite length_fmap, length_take.
  - done.
  - rewrite Hfst. destruct Hok as [Hs _ _].
    rewrite <-(take_drop n (prices sb)) in Hs.
    by apply StronglySorted_app in Hs as (_ & ? & _).
  - intros p q Hin. apply list_elem_of_fmap in Hin as (p' & [= -> ->] & Hp').
    apply subseteq_take in Hp'. apply (ok_keys sb Hok) in Hp' as [v Hv].
    rewrite Hv. cbn. split; [done|]. by eapply (ok_pos sb Hok).
Qed.

Lemma best_n_levels_witness :
  ∃ l, best_n (side_of true [(dec 100 1, dec 1 1); (dec 101 1, dec 2 1); (dec 103 1, dec 5 1)]) 2
       = Return l ∧ length l = 2%nat.
Proof.
  destruct (best_n_levels
              (side_of true [(dec 100 1, dec 1 1); (dec 101 1, dec 2 1); (dec 103 1, dec 5 1)])
              2 ltac:(compute_done)) as (l & E & Hlen & _).
  exists l. split; [exact E|]. rewrite Hlen. reflexivity.
Defined.

(** In any state of the side, [best_n n] either returns or raises
    [KeyError], and it raises exactly when one of the first [n] prices has
    no entry in the dictionary. *)
Theorem best_n_raises_iff (sb : SideBook) (n : nat) :
  (best_n sb n = Raise KeyError ↔ ∃ p, p ∈ take n (prices sb) ∧ qty sb !! p = None) ∧
  (best_n sb n = Raise KeyError ∨ ∃ l, best_n sb n = Return l).
Proof.
  unfold best_n. induction (take n (prices sb)) as [|p ps [IH1 IH2]]; cbn.
  - split; [|by eauto]. split; [done|]. by intros (p & ?%elem_of_nil & _).
  - destruct (qty sb !! p) as [v|] eqn:Hv.
    + destruct IH2 as [E|[l E]]; rewrite E in *.
      * split; [|by left]. split; [|done]. intros _.
        destruct (proj1 IH1 eq_refl) as (x & Hx & Hn). exists x. set_solver.
      * split; [|by eauto]. split; [done|]. intros (x & Hx & Hn).
        apply elem_of_cons in Hx as [->|Hx]; [congruence|].
        assert (Return l = Raise KeyError) by (apply IH1; eauto). done.
    + split; [|by left]. split; [|done]. intros _. exists p. set_solver.
Qed.

(** ** [SideBook.notional_ahead] under updates and thresholds *)

Lemma notional_ahead_sorted (sb : SideBook) (t : Qc) :
  StronglySorted (side_lt (is_ask sb)) (prices sb) →
  notional_ahead sb t = notional_ahead_spec sb t.
Proof.
  intros Hs.
  assert ((if is_ask sb then
             let idx := (Z.of_nat (bisect_right (prices sb) t) - 1)%Z in
             if (idx <? 0)%Z then 0
             else foldl (λ total p, total + p * default 0 (qty sb !! p)) 0
                        (take (Z.to_nat (idx + 1)) (prices sb))
           else scan_desc (qty sb) t (prices sb) 0) = notional_ahead_spec sb t) as G.
  { unfold notional_ahead_spec, levels. destruct (is_ask sb) eqn:Ha.
    - destruct (bisect_right_spec _ (asc_mono _ Hs) t) as [Hl Hr]. cbn zeta in *.
      set (r := bisect_right (prices sb) t) in *.
      rewrite (filter_take_drop _ _ r).
      2:{ rewrite <-fmap_take. apply Forall_fmap.
          eapply Forall_impl; [exact Hl|]. by intros y Hy. }
      2:{ rewrite <-fmap_drop. apply Forall_fmap.
          eapply Forall_impl; [exact Hr|]. intros y Hy. cbn in *. intros ?. qc_arith. }
      rewrite <-fmap_take.
      destruct (Z.ltb_spec (Z.of_nat r - 1) 0) as [Hr0|Hr0].
      + assert (r = 0%nat) as -> by lia. done.
      + replace (Z.to_nat (Z.of_nat r - 1 + 1)) with r by lia.
        rewrite foldl_notional. ring.
    - rewrite scan_desc_spec by done. ring. }
  unfold notional_ahead. destruct (prices sb) as [|p0 ps] eqn:Hps.
  + unfold notional_ahead_spec, levels. by rewrite Hps.
  + exact G.
Qed.

Lemma qty_cases (m : gmap Qc Qc) (p : Qc) : is_Some (m !! p) ∨ m !! p = None.
Proof. destruct (m !! p); eauto. Qed.

Lemma sum_notional_app (l1 l2 : Levels) :
  sum_notional (l1 ++ l2) = sum_notional l1 + sum_notional l2.
Proof.
  induction l1 as [|[p q] l1 IH].
  - rewrite app_nil_l, sum_notional_nil. ring.
  - rewrite <-app_comm_cons, !sum_notional_cons, IH. ring.
Qed.

Lemma levels_around a (m : gmap Qc Qc) (l1 l2 : list Qc) (p : Qc) :
  levels (mkSide a (l1 ++ p :: l2) m)
  = levels (mkSide a l1 m) ++ [(p, default 0 (m !! p))] ++ levels (mkSide a l2 m).
Proof. unfold levels. cbn. by rewrite fmap_app, fmap_cons. Qed.

Lemma levels_app a (m : gmap Qc Qc) (l1 l2 : list Qc) :
  levels (mkSide a (l1 ++ l2) m) = levels (mkSide a l1 m) ++ [] ++ levels (mkSide a l2 m).
Proof. unfold levels. cbn. by rewrite fmap_app. Qed.

(** [ring], with the sums taken as atoms. *)
Ltac sum_ring :=
  unfold id;
  repeat match goal with
         | |- context [sum_notional ?l] => generalize (sum_notional l); intro
         end;
  ring.

Lemma notional_split a (t : Qc) (L1 X L2 : Levels) :
  sum_notional (filter (λ lv, side_le a lv.1 t) (L1 ++ X ++ L2))
  = sum_notional (filter (λ lv, side_le a lv.1 t) L1)
    + sum_notional (filter (λ lv, side_le a lv.1 t) X)
    + sum_notional (filter (λ lv, side_le a lv.1 t) L2).
Proof. rewrite !filter_app, !sum_notional_app. ring. Qed.

Lemma notional_single a (t p v : Qc) :
  sum_notional (filter (λ lv, side_le a lv.1 t) [(p, v)])
  = if decide (side_le a p t) then p * v else 0.
Proof.
  rewrite filter_cons, filter_nil. cbn [fst]. case_decide.
  - rewrite sum_notional_cons, sum_notional_nil. ring.
  - apply sum_notional_nil.
Qed.

(** On a side that satisfies the invariant, one [update_level p q] changes
    the notional ahead of a threshold [t] by [p] times the change of the
    quantity held at [p] (from 0 if there was no level, to 0 if the level
    is removed) when [p] is better than or equal to [t], and not at all
    otherwise. *)
Theorem notional_ahead_update (sb : SideBook) (p q t : Qc) :
  side_ok sb →
  ∃ sb', update_level p q sb = (Return (), sb') ∧
    notional_ahead sb' t
    = notional_ahead sb t
      + (if decide (side_le (is_ask sb) p t)
         then p * ((if decide (q ≤ 0) then 0 else q) - default 0 (qty sb !! p))
         else 0).
Proof.
  intros Hok. destruct (update_level_ok sb p q Hok) as (sb' & E & Hok' & Ha & Hq).
  exists sb'. split; [done|].
  rewrite (notional_ahead_sorted sb' t (ok_sorted _ Hok')),
          (notional_ahead_sorted sb t (ok_sorted _ Hok)).
  unfold notional_ahead_spec. rewrite Ha.
  pose proof (sorted_NoDup _ _ (ok_sorted sb Hok)) as Hnd.
  destruct sb as [a ps m]. cbn [is_ask prices qty] in *.
  unfold update_level in E. cbn [is_ask prices qty] in E.
  destruct (qty_cases m p) as [[v Hv]|Hv].
  - (* a level exists at [p] *)
    assert (p ∈ ps) as Hin by (apply (ok_keys _ Hok); cbn; eauto).
    destruct (list_index_elem _ _ Hin) as (l1 & l2 & -> & Hidx).
    apply NoDup_app in Hnd as (_ & Hn1 & [Hn2 _]%NoDup_cons).
    assert (p ∉ l1) as Hp1 by (intros ?; eapply Hn1; [done|set_solver]).
    rewrite Hv in E |- *. cbn [default]. rewrite levels_around, notional_split, Hv.
    cbn [default]. rewrite notional_single.
    destruct (leb q 0) eqn:Hq0.
    + apply leb_true in Hq0. rewrite Hidx, delete_middle in E. injection E as <-.
      rewrite levels_app, notional_split, filter_nil, sum_notional_nil.
      rewrite (levels_ext a a l1 m), (levels_ext a a l2 m)
        by (intros x Hx; apply lookup_delete_ne; by intros ->).
      destruct (decide (q ≤ 0)); [|done]. case_decide; sum_ring.
    + apply leb_false in Hq0. injection E as <-.
      rewrite levels_around, notional_split, lookup_insert_eq. cbn [default].
      rewrite notional_single.
      rewrite (levels_ext a a l1 m), (levels_ext a a l2 m)
        by (intros x Hx; apply lookup_insert_ne; by intros ->).
      destruct (decide (q ≤ 0)); [by apply Qclt_nge in Hq0|]. case_decide; sum_ring.
  - (* no level at [p] *)
    assert (p ∉ ps) as Hnin.
    { intros [v Hv']%(ok_keys _ Hok). cbn in Hv'. congruence. }
    rewrite Hv in E |- *. cbn [default]. destruct (leb q 0) eqn:Hq0.
    + apply leb_true in Hq0. injection E as <-.
      destruct (decide (q ≤ 0)); [|done]. case_decide; sum_ring.
    + apply leb_false in Hq0. injection E as <-. unfold list_insert_at.
      set (i := _key_index (mkSide a ps m) p).
      rewrite levels_around, notional_split, lookup_insert_eq. cbn [default].
      rewrite notional_single.
      assert (levels (mkSide a ps m)
              = levels (mkSide a (take i ps) m) ++ [] ++ levels (mkSide a (drop i ps) m))
        as Hsplit by (by rewrite <-levels_app, take_drop).
      rewrite Hsplit, notional_split, filter_nil, sum_notional_nil.
      rewrite (levels_ext a a (take i ps) m), (levels_ext a a (drop i ps) m)
        by (intros x Hx; apply lookup_insert_ne; intros ->; apply Hnin;
            first [by eapply subseteq_take | by eapply subseteq_drop]).
      destruct (decide (q ≤ 0)); [by apply Qclt_nge in Hq0|]. case_decide; sum_ring.
Qed.

Lemma notional_ahead_update_witness :
  let sb := side_of true [(dec 100 1, dec 1 1); (dec 101 1, dec 2 1); (dec 103 1, dec 5 1)] in
  side_ok sb ∧
  ∃ sb', update_level (dec 101 1) 0 sb = (Return (), sb') ∧
         notional_ahead sb' (dec 103 1) = dec 615 1.
Proof.
  cbn zeta.
  assert (side_ok (side_of true [(dec 100 1, dec 1 1); (dec 101 1, dec 2 1);
                                 (dec 103 1, dec 5 1)])) as Hok by compute_done.
  split; [exact Hok|].
  destruct (notional_ahead_update _ (dec 101 1) 0 (dec 103 1) Hok) as (sb' & E & Hn).
  exists sb'. split; [exact E|]. rewrite Hn. compute_done.
Defined.

Lemma sum_filter_mono (a : bool) (t1 t2 : Qc) (L : Levels) :
  side_le a t1 t2 → Forall (λ lv, 0 ≤ lv.1 * lv.2) L →
  0 ≤ sum_notional (filter (λ lv, side_le a lv.1 t1) L) ∧
  sum_notional (filter (λ lv, side_le a lv.1 t1) L)
  ≤ sum_notional (filter (λ lv, side_le a lv.1 t2) L).
Proof.
  intros Ht. induction 1 as [|[p q] L Hpq _ [IH0 IH1]].
  - rewrite !filter_nil, sum_notional_nil. by split.
  - cbn [fst snd] in Hpq. rewrite !filter_cons. cbn [fst].
    destruct (decide (side_le a p t1)) as [H1|H1];
      destruct (decide (side_le a p t2)) as [H2|H2];
      rewrite ?sum_notional_cons;
      revert Hpq IH0 IH1; generalize (p * q);
      generalize (sum_notional (filter (λ lv, side_le a lv.1 t1) L));
      generalize (sum_notional (filter (λ lv, side_le a lv.1 t2) L));
      intros s2 s1 x Hx Hs1 Hs12.
    + split; qc_arith.
    + exfalso. apply H2. destruct a; cbn in *; qc_arith.
    + split; qc_arith.
    + by split.
Qed.

(** On a side that satisfies the invariant and holds no negative price,
    the notional ahead is never negative and never decreases when the
    threshold moves away from the best price (up for asks, down for
    bids). *)
Theorem notional_ahead_monotone (sb : SideBook) (t1 t2 : Qc) :
  side_ok sb → (∀ p, p ∈ prices sb → 0 ≤ p) → side_le (is_ask sb) t1 t2 →
  0 ≤ notional_ahead sb t1 ∧ notional_ahead sb t1 ≤ notional_ahead sb t2.
Proof.
  intros Hok Hnn Ht.
  rewrite !notional_ahead_sorted by (by apply ok_sorted).
  apply sum_filter_mono; [done|].
  unfold levels. apply Forall_fmap, Forall_forall. intros p Hp. cbn.
  apply Qcmult_nonneg_nonneg; [by apply Hnn|].
  destruct (proj1 (ok_keys sb Hok p) Hp) as [v Hv]. rewrite Hv. cbn.
  apply Qclt_le_weak. by eapply (ok_pos sb Hok).
Qed.

Lemma notional_ahead_monotone_witness :
  let sb := side_of false [(dec 103 1, dec 5 1); (dec 101 1, dec 2 1)] in
  0 ≤ notional_ahead sb (dec 102 1) ∧
  notional_ahead sb (dec 102 1) ≤ notional_ahead sb (dec 100 1).
Proof.
  cbn zeta. apply notional_ahead_monotone; [compute_done| |compute_done].
  intros p Hp. repeat (apply elem_of_cons in Hp as [->|Hp]); [compute_done..|].
  by apply elem_of_nil in Hp.
Defined.

(** ** [OrderBook.notional_ahead] *)

Lemma six_tokens (s : string) :
  s ∈ ["ask"; "asks"; "sell"; "bid"; "bids"; "buy"]%string ↔
  s ∈ ["ask"; "asks"; "sell"]%string ∨ s ∈ ["bid"; "bids"; "buy"]%string.
Proof. rewrite !elem_of_cons, !elem_of_nil. tauto. Qed.

(** [OrderBook.notional_ahead] raises [ValueError] exactly for the tokens
    whose lower-case form is none of ask, asks, sell, bid, bids, buy.  Every
    token that [place_limit_order] accepts is accepted here too, and on a
    book that satisfies the invariant the result for a buy token is the sum
    of price × quantity over the bid levels priced at or above the given
    price, for a sell token the sum over the ask levels priced at or below
    it. *)
Theorem book_notional_ahead_tokens (b : OrderBook) (side : string) (price : Qc) :
  (book_notional_ahead b side price = Raise ValueError ↔
   lower side ∉ ["ask"; "asks"; "sell"; "bid"; "bids"; "buy"]%string) ∧
  (book_ok b → lower side ∈ ["buy"; "bid"]%string →
   book_notional_ahead b side price
   = Return (sum_notional (filter (λ lv, price ≤ lv.1) (levels (bids b))))) ∧
  (book_ok b → lower side ∈ ["sell"; "ask"]%string →
   book_notional_ahead b side price
   = Return (sum_notional (filter (λ lv, lv.1 ≤ price) (levels (asks b))))).
Proof.
  unfold book_notional_ahead. split_and!.
  - rewrite six_tokens.
    destruct (bool_decide_reflect (lower side ∈ ["ask"; "asks"; "sell"]%string));
      [split; [done|tauto]|].
    destruct (bool_decide_reflect (lower side ∈ ["bid"; "bids"; "buy"]%string));
      [split; [done|tauto]|].
    split; [tauto|done].
  - intros (Hb & _ & Hfb & _) Hs.
    rewrite (bool_decide_eq_false_2 (lower side ∈ ["ask"; "asks"; "sell"]%string)).
    2:{ intros Ha. revert Hs Ha. rewrite !elem_of_cons, !elem_of_nil.
        intros [->|[->|[]]] [?|[?|[?|[]]]]; discriminate. }
    rewrite bool_decide_eq_true_2.
    2:{ revert Hs. rewrite !elem_of_cons, !elem_of_nil. tauto. }
    rewrite notional_ahead_sorted by (by apply ok_sorted).
    unfold notional_ahead_spec. by rewrite Hfb.
  - intros (_ & Ha & _ & Hfa) Hs.
    rewrite bool_decide_eq_true_2.
    2:{ revert Hs. rewrite !elem_of_cons, !elem_of_nil. tauto. }
    rewrite notional_ahead_sorted by (by apply ok_sorted).
    unfold notional_ahead_spec. by rewrite Hfa.
Qed.

Lemma book_notional_ahead_tokens_witness :
  book_notional_ahead crossing_example "Sell" (dec 1005 10)
  = Return (sum_notional (filter (λ lv, lv.1 ≤ dec 1005 10) (levels (asks crossing_example)))).
Proof.
  apply (proj2 (proj2 (book_notional_ahead_tokens crossing_example "Sell" (dec 1005 10))));
    compute_done.
Defined.

(** ** The crossing loop in any state of the book *)

Lemma take_level_any (sb : SideBook) (p : Qc) (ps : list Qc) (lq q : Qc) :
  prices sb = p :: ps → qty sb !! p = Some lq →
  ∃ sb', take_level p lq (py_min lq q) sb = (Return (), sb') ∧
         (prices sb' = ps ∨ q - py_min lq q ≤ tolerance).
Proof.
  intros Hps Hq. pose proof tolerance_pos as Htol.
  unfold py_min, take_level, bind. destruct (ltb q lq) eqn:Hc.
  - apply ltb_true in Hc.
    rewrite (update_level_replace sb p (lq - q) lq Hq) by qc_arith.
    cbn. rewrite lookup_insert_eq. destruct (leb (lq - q) tolerance).
    + erewrite (update_level_pop _ p ps 0); [| done | apply lookup_insert_eq | done].
      eexists. split; [done|]. right. qc_arith.
    + eexists. split; [done|]. right. qc_arith.
  - apply ltb_false in Hc.
    rewrite (update_level_pop sb p ps (lq - lq) lq Hps Hq) by qc_arith.
    cbn. rewrite lookup_delete_eq. eexists. split; [done|]. by left.
Qed.

(** In any state of the side, with fuel above the number of its prices,
    the [while] loop of [place_limit_order] comes to an end: it returns, or
    it raises [KeyError] because the best price has no entry in the
    dictionary.  It never runs out of fuel. *)
Lemma cross_loop_terminates (mb : Qc → bool) (fuel : nat) : ∀ (sb : SideBook) (q : Qc),
  (length (prices sb) < fuel)%nat →
  ∃ sb', (∃ q', cross_loop mb fuel q sb = (Return q', sb')) ∨
         cross_loop mb fuel q sb = (Raise KeyError, sb').
Proof.
  induction fuel as [|fuel IH]; intros sb q Hfuel; [lia|].
  cbn [cross_loop]. destruct (prices sb) as [|p ps] eqn:Hps; [by eauto|].
  destruct (mb p && ltb tolerance q); [|by eauto].
  destruct (qty sb !! p) as [lq|] eqn:Hq; [|by eauto].
  destruct (take_level_any sb p ps lq q Hps Hq) as (sb1 & E1 & Hcases).
  unfold bind. rewrite E1. destruct Hcases as [Hps1|Hstop].
  - apply IH. rewrite Hps1. cbn in Hfuel. lia.
  - rewrite cross_loop_stop by done. eauto.
Qed.

Lemma lookup_all_no_fuel (m : gmap Qc Qc) (ps : list Qc) : lookup_all m ps ≠ OutOfFuel.
Proof.
  induction ps as [|p ps IH]; cbn; [done|].
  destruct (m !! p); [|done]. by destruct (lookup_all m ps).
Qed.

Lemma top10_no_fuel (b : OrderBook) : top10 b ≠ OutOfFuel.
Proof.
  unfold top10, best_n.
  pose proof (lookup_all_no_fuel (qty (bids b)) (take 10 (prices (bids b)))).
  pose proof (lookup_all_no_fuel (qty (asks b)) (take 10 (prices (asks b)))).
  destruct (lookup_all (qty (bids b)) _); [|done|done].
  by destruct (lookup_all (qty (asks b)) _).
Qed.

Lemma update_level_no_fuel (sb : SideBook) (p q : Qc) :
  (update_level p q sb).1 ≠ OutOfFuel.
Proof.
  unfold update_level.
  destruct (leb q 0), (qty sb !! p); try done. by destruct (list_index p (prices sb)).
Qed.

(** In any state of the book, with fuel above the number of prices of
    either side, [place_limit_order] never runs out of fuel: the call
    returns or raises. *)
Theorem place_limit_order_terminates (b : OrderBook) (side : string) (P Q : Qc) (fuel : nat) :
  (length (prices (asks b)) < fuel)%nat → (length (prices (bids b)) < fuel)%nat →
  (place_limit_order fuel side P Q b).1 ≠ OutOfFuel.
Proof.
  intros Hfa Hfb. unfold place_limit_order.
  destruct (leb Q 0); [apply top10_no_fuel|].
  case_bool_decide; [|case_bool_decide; [|done]].
  - unfold bind at 1. unfold on_asks.
    destruct (cross_loop_terminates (λ p, leb p P) fuel (asks b) Q Hfa)
      as (sa & [[q' ->]| ->]); [|done].
    unfold bind, rest_residual, reads, on_bids, ret.
    destruct (ltb tolerance q'); cbn [bids asks].
    + pose proof (update_level_no_fuel (bids b) P
                    (default 0 (qty (bids b) !! P) + q')) as Hu.
      destruct (update_level _ _ (bids b)) as [[[]|ex|] sb]; cbn in *;
        [apply top10_no_fuel|done|done].
    + apply top10_no_fuel.
  - unfold bind at 1. unfold on_bids.
    destruct (cross_loop_terminates (λ p, leb P p) fuel (bids b) Q Hfb)
      as (sb & [[q' ->]| ->]); [|done].
    unfold bind, rest_residual, reads, on_asks, ret.
    destruct (ltb tolerance q'); cbn [bids asks].
    + pose proof (update_level_no_fuel (asks b) P
                    (default 0 (qty (asks b) !! P) + q')) as Hu.
      destruct (update_level _ _ (asks b)) as [[[]|ex|] sa]; cbn in *;
        [apply top10_no_fuel|done|done].
    + apply top10_no_fuel.
Qed.

Lemma place_limit_order_terminates_witness :
  (place_limit_order 3 "sell" (dec 99 1) (dec 4 1) crossing_example).1 ≠ OutOfFuel.
Proof. apply place_limit_order_terminates; cbn; lia. Defined.

(** ** What a simulated order leaves alone *)

Lemma levels_elem (sb : SideBook) (p v : Qc) :
  side_ok sb → ((p, v) ∈ levels sb ↔ qty sb !! p = Some v).
Proof.
  intros Hok. unfold levels. rewrite list_elem_of_fmap. split.
  - intros (p' & [= <- ->] & Hp). apply (ok_keys sb Hok) in Hp as [w Hw].
    by rewrite Hw.
  - intros Hv. exists p. rewrite Hv. split; [done|].
    apply (ok_keys sb Hok). eauto.
Qed.

Lemma levels_positive (sb : SideBook) :
  side_ok sb → Forall (λ lv, 0 < lv.2) (levels sb).
Proof.
  intros Hok. apply Forall_forall. intros [p v] Hin%(levels_elem sb p v Hok).
  by eapply (ok_pos sb Hok).
Qed.

Lemma qmin_bounds (v rem : Qc) :
  0 < v → 0 < rem → 0 < qmin v rem ∧ qmin v rem ≤ v ∧ qmin v rem ≤ rem.
Proof. intros Hv Hr. unfold qmin. case_decide; split_and!; qc_arith. Qed.

Lemma cross_rtc_frame (mk : Qc → Prop) (st st' : Levels * Qc) :
  rtc (cross_step mk) st st' →
  Forall (λ lv, 0 < lv.2) st.1 → 0 ≤ st.2 →
  Forall (λ lv, 0 < lv.2) st'.1 ∧ 0 ≤ st'.2 ∧ st'.2 ≤ st.2 ∧
  (∀ p v', (p, v') ∈ st'.1 → ∃ v, (p, v) ∈ st.1 ∧ v' ≤ v) ∧
  (∀ p v, (p, v) ∈ st.1 → ¬ mk p → (p, v) ∈ st'.1).
Proof.
  pose proof tolerance_pos as Htol.
  induction 1 as [st|st1 st2 st3 Hstep _ IH]; intros Hpos Hq.
  - split_and!; [done|done|done| |done]. intros p v' Hin. by exists v'.
  - destruct Hstep as [p v rest rem Hmk Hrem]. cbn [fst snd] in *.
    apply Forall_cons in Hpos as [Hv Hrest]. cbn [snd] in Hv.
    destruct (qmin_bounds v rem) as (Hm0 & Hmv & Hmr); [done|qc_arith|].
    destruct IH as (Hpos3 & Hq3 & Hle3 & Hsub & Hkeep).
    { case_decide; [done|]. constructor; [cbn; qc_arith|done]. }
    { qc_arith. }
    split_and!; [done|done|qc_arith| |].
    + intros x w' Hin. destruct (Hsub x w' Hin) as (w & Hw & Hle).
      case_decide.
      * exists w. split; [set_solver|done].
      * apply elem_of_cons in Hw as [[= -> ->]|Hw].
        -- exists v. split; [set_solver|qc_arith].
        -- exists w. split; [set_solver|done].
    + intros x w Hin Hx. apply Hkeep; [|done].
      apply elem_of_cons in Hin as [[= -> ->]|Hin]; [done|].
      case_decide; set_solver.
Qed.

Lemma crosses_frame (mk : Qc → Prop) (hit hit' own own' : SideBook) (P Q : Qc) :
  side_ok hit → side_ok hit' → side_ok own → tolerance < Q →
  crosses mk hit hit' own own' P Q →
  (∀ p v, qty hit !! p = Some v → ¬ mk p → qty hit' !! p = Some v) ∧
  (∀ p v', qty hit' !! p = Some v' → ∃ v, qty hit !! p = Some v ∧ v' ≤ v) ∧
  (∀ p, p ≠ P → qty own' !! p = qty own !! p) ∧
  default 0 (qty own !! P) ≤ default 0 (qty own' !! P) ∧
  default 0 (qty own' !! P) ≤ default 0 (qty own !! P) + Q.
Proof.
  intros Hhit Hhit' Hown HQ (rem & Hrtc & _ & Hrest).
  pose proof tolerance_pos as Htol.
  destruct (cross_rtc_frame mk _ _ Hrtc) as (_ & Hrem0 & HremQ & Hsub & Hkeep);
    [by apply levels_positive | cbn; qc_arith |]. cbn [fst snd] in *.
  split_and!.
  - intros p v Hv Hp. apply (levels_elem hit' p v Hhit'), Hkeep; [|done].
    by apply (levels_elem hit p v Hhit).
  - intros p v' Hv'. apply (levels_elem hit' p v' Hhit'), Hsub in Hv' as (v & Hv & Hle).
    exists v. split; [|done]. by apply (levels_elem hit p v Hhit).
  - intros p Hp. unfold residual_rests in Hrest. case_decide; [|by subst].
    rewrite Hrest. by apply lookup_insert_ne.
  - unfold residual_rests in Hrest. case_decide; [|subst; done].
    rewrite Hrest, lookup_insert_eq. cbn. generalize (default 0 (qty own !! P)).
    intros e. qc_arith.
  - unfold residual_rests in Hrest. case_decide as Hc.
    + rewrite Hrest, lookup_insert_eq. cbn. generalize (default 0 (qty own !! P)).
      intros e. qc_arith.
    + subst. generalize (default 0 (qty own !! P)). intros e. qc_arith.
Qed.

(** A simulated buy on a book that satisfies the invariant leaves every ask
    level priced above the limit as it was, creates no ask level and raises
    no ask quantity; on the bid side it can only change the level at the
    limit price, raising it by at most the order quantity.  A sell is
    symmetric: bid levels priced below the limit are untouched and only the
    ask level at the limit price can grow. *)
Theorem place_limit_order_frame :
  (∀ b side P Q fuel,
     book_ok b → tolerance < Q → lower side ∈ ["buy"; "bid"]%string →
     (length (prices (asks b)) < fuel)%nat →
     ∃ top b', place_limit_order fuel side P Q b = (Return top, b') ∧
       (∀ p v, qty (asks b) !! p = Some v → P < p → qty (asks b') !! p = Some v) ∧
       (∀ p v', qty (asks b') !! p = Some v' → ∃ v, qty (asks b) !! p = Some v ∧ v' ≤ v) ∧
       (∀ p, p ≠ P → qty (bids b') !! p = qty (bids b) !! p) ∧
       default 0 (qty (bids b) !! P) ≤ default 0 (qty (bids b') !! P) ∧
       default 0 (qty (bids b') !! P) ≤ default 0 (qty (bids b) !! P) + Q) ∧
  (∀ b side P Q fuel,
     book_ok b → tolerance < Q → lower side ∈ ["sell"; "ask"]%string →
     (length (prices (bids b)) < fuel)%nat →
     ∃ top b', place_limit_order fuel side P Q b = (Return top, b') ∧
       (∀ p v, qty (bids b) !! p = Some v → p < P → qty (bids b') !! p = Some v) ∧
       (∀ p v', qty (bids b') !! p = Some v' → ∃ v, qty (bids b) !! p = Some v ∧ v' ≤ v) ∧
       (∀ p, p ≠ P → qty (asks b') !! p = qty (asks b) !! p) ∧
       default 0 (qty (asks b) !! P) ≤ default 0 (qty (asks b') !! P) ∧
       default 0 (qty (asks b') !! P) ≤ default 0 (qty (asks b) !! P) + Q).
Proof.
  split; intros b side P Q fuel Hok HQ Hside Hfuel.
  - destruct (place_buy_ok b side P Q fuel Hok HQ Hside Hfuel)
      as (top & b' & E & Hok' & _ & Hc).
    exists top, b'. split; [done|].
    destruct Hok as (Hb & Ha & _), Hok' as (Hb' & Ha' & _).
    destruct (crosses_frame _ _ _ _ _ P Q Ha Ha' Hb HQ Hc) as (H1 & H2 & H3 & H4 & H5).
    split_and!; try done. intros p v Hv Hp. apply H1; [done|]. by apply Qclt_nge.
  - destruct (place_sell_ok b side P Q fuel Hok HQ Hside Hfuel)
      as (top & b' & E & Hok' & _ & Hc).
    exists top, b'. split; [done|].
    destruct Hok as (Hb & Ha & _), Hok' as (Hb' & Ha' & _).
    destruct (crosses_frame _ _ _ _ _ P Q Hb Hb' Ha HQ Hc) as (H1 & H2 & H3 & H4 & H5).
    split_and!; try done. intros p v Hv Hp. apply H1; [done|]. by apply Qclt_nge.
Qed.

Lemma place_limit_order_frame_witness :
  ∃ top b', place_limit_order 3 "buy" (dec 1005 10) (dec 4 1) crossing_example = (Return top, b') ∧
    qty (asks b') !! dec 101 1 = Some (dec 3 1).
Proof.
  destruct (proj1 place_limit_order_frame crossing_example "buy" (dec 1005 10) (dec 4 1) 3)
    as (top & b' & E & Hkeep & _); [compute_done..| cbn; lia |].
  exists top, b'. split; [exact E|]. apply Hkeep; compute_done.
Defined.

Lemma done_unmarketable (mk : Qc → Prop) (sb : SideBook) (rem : Qc) :
  side_ok sb → tolerance < rem → cross_done mk (levels sb, rem) →
  (∀ x y, side_lt (is_ask sb) x y → ¬ mk x → ¬ mk y) →
  ∀ p, p ∈ prices sb → ¬ mk p.
Proof.
  intros Hok Hrem Hdone Hmono p Hp. unfold cross_done, levels in Hdone. cbn in Hdone.
  pose proof (ok_sorted sb Hok) as Hs.
  destruct (prices sb) as [|p0 ps]; [by apply elem_of_nil in Hp|].
  cbn in Hdone. destruct Hdone as [Hn|Hle]; [|exfalso; qc_arith].
  apply elem_of_cons in Hp as [->|Hp]; [done|].
  apply StronglySorted_cons in Hs as [Hall _]. rewrite Forall_forall in Hall.
  eapply Hmono; [by apply Hall|done].
Qed.

(** A residual never rests while marketable liquidity remains: after a
    simulated buy on a book that satisfies the invariant, either the bid
    side is exactly as before, or every remaining ask is priced above the
    limit; after a sell, either the ask side is as before, or every
    remaining bid is priced below the limit. *)
Theorem place_limit_order_rests_uncrossed :
  (∀ b side P Q fuel,
     book_ok b → tolerance < Q → lower side ∈ ["buy"; "bid"]%string →
     (length (prices (asks b)) < fuel)%nat →
     ∃ top b', place_limit_order fuel side P Q b = (Return top, b') ∧
       (bids b' = bids b ∨ ∀ p, p ∈ prices (asks b') → P < p)) ∧
  (∀ b side P Q fuel,
     book_ok b → tolerance < Q → lower side ∈ ["sell"; "ask"]%string →
     (length (prices (bids b)) < fuel)%nat →
     ∃ top b', place_limit_order fuel side P Q b = (Return top, b') ∧
       (asks b' = asks b ∨ ∀ p, p ∈ prices (bids b') → p < P)).
Proof.
  split; intros b side P Q fuel Hok HQ Hside Hfuel.
  - destruct (place_buy_ok b side P Q fuel Hok HQ Hside Hfuel)
      as (top & b' & E & (Hb' & Ha' & _ & Hfa') & _ & (rem & _ & Hdone & Hrest)).
    exists top, b'. split; [done|].
    unfold residual_rests in Hrest. case_decide as Hrem; [right|by left].
    intros p Hp. apply Qclt_nge.
    apply (done_unmarketable (λ p, p ≤ P) (asks b') rem Ha' Hrem Hdone); [|done].
    rewrite Hfa'. cbn. intros x y Hxy Hx Hy. apply Hx. qc_arith.
  - destruct (place_sell_ok b side P Q fuel Hok HQ Hside Hfuel)
      as (top & b' & E & (Hb' & Ha' & Hfb' & _) & _ & (rem & _ & Hdone & Hrest)).
    exists top, b'. split; [done|].
    unfold residual_rests in Hrest. case_decide as Hrem; [right|by left].
    intros p Hp. apply Qclt_nge.
    apply (done_unmarketable (λ p, P ≤ p) (bids b') rem Hb' Hrem Hdone); [|done].
    rewrite Hfb'. cbn. intros x y Hxy Hx Hy. apply Hx. qc_arith.
Qed.

Lemma place_limit_order_rests_uncrossed_witness :
  ∃ top b', place_limit_order 3 "bid" (dec 1005 10) (dec 4 1) crossing_example = (Return top, b') ∧
    (bids b' = bids crossing_example ∨ ∀ p, p ∈ prices (asks b') → dec 1005 10 < p).
Proof.
  apply (proj1 place_limit_order_rests_uncrossed); [compute_done..| cbn; lia].
Defined.

Lemma cross_loop_unmarketable (mb : Qc → bool) (fuel : nat) (q : Qc) (sb : SideBook) :
  (∀ p, head (prices sb) = Some p → mb p = false) →
  cross_loop mb fuel q sb = (Return q, sb).
Proof.
  intros H. destruct fuel; cbn; destruct (prices sb) as [|p ps]; try done;
    by rewrite (H p eq_refl).
Qed.

(** When the opposite side holds no marketable level (it is empty, or its
    best price is beyond the limit), a simulated order with quantity above
    the tolerance leaves the opposite side untouched and adds its whole
    quantity to its own side at the limit price, whatever the fuel. *)
Theorem place_limit_order_no_match :
  (∀ b side P Q fuel,
     book_ok b → tolerance < Q → lower side ∈ ["buy"; "bid"]%string →
     (∀ p, head (prices (asks b)) = Some p → P < p) →
     ∃ top b', place_limit_order fuel side P Q b = (Return top, b') ∧
       book_ok b' ∧ asks b' = asks b ∧
       qty (bids b') = <[P := default 0 (qty (bids b) !! P) + Q]> (qty (bids b))) ∧
  (∀ b side P Q fuel,
     book_ok b → tolerance < Q → lower side ∈ ["sell"; "ask"]%string →
     (∀ p, head (prices (bids b)) = Some p → p < P) →
     ∃ top b', place_limit_order fuel side P Q b = (Return top, b') ∧
       book_ok b' ∧ bids b' = bids b ∧
       qty (asks b') = <[P := default 0 (qty (asks b) !! P) + Q]> (qty (asks b))).
Proof.
  pose proof tolerance_pos as Htol.
  split; intros b side P Q fuel (Hb & Ha & Hfb & Hfa) HQ Hside Hbest.
  - assert (leb Q 0 = false) as HQ0 by (apply leb_false; qc_arith).
    unfold place_limit_order. rewrite HQ0, bool_decide_eq_true_2 by done.
    unfold bind at 1. unfold on_asks.
    rewrite cross_loop_unmarketable by (intros p Hp; by apply leb_false, Hbest).
    unfold bind, rest_residual, reads, on_bids.
    rewrite (proj2 (ltb_true tolerance Q) HQ). cbn [bids asks]. cbv beta.
    destruct (residual_update (bids b) P Q Hb HQ) as (sb & Eb & Hokb & Hab & Hqb).
    rewrite Eb. destruct b as [b0 a0]; cbn [bids asks] in *.
    assert (book_ok (mkBook sb a0)) as Hok' by (split_and!; cbn; congruence).
    eexists _, _. split; [by rewrite top10_ok|]. done.
  - assert (leb Q 0 = false) as HQ0 by (apply leb_false; qc_arith).
    unfold place_limit_order.
    rewrite HQ0, (sell_not_buy _ Hside), bool_decide_eq_true_2 by done.
    unfold bind at 1. unfold on_bids.
    rewrite cross_loop_unmarketable by (intros p Hp; by apply leb_false, Hbest).
    unfold bind, rest_residual, reads, on_asks.
    rewrite (proj2 (ltb_true tolerance Q) HQ). cbn [bids asks]. cbv beta.
    destruct (residual_update (asks b) P Q Ha HQ) as (sa & Ea & Hoka & Haa & Hqa).
    rewrite Ea. destruct b as [b0 a0]; cbn [bids asks] in *.
    assert (book_ok (mkBook b0 sa)) as Hok' by (split_and!; cbn; congruence).
    eexists _, _. split; [by rewrite top10_ok|]. done.
Qed.

Lemma place_limit_order_no_match_witness :
  ∃ top b', place_limit_order 0%nat "BID" (dec 99 1) (dec 3 1) crossing_example = (Return top, b') ∧
    asks b' = asks crossing_example ∧
    qty (bids b') !! dec 99 1 = Some (dec 3 1).
Proof.
  destruct (proj1 place_limit_order_no_match crossing_example "BID" (dec 99 1) (dec 3 1) 0%nat)
    as (top & b' & E & _ & Ha & Hq).
  - compute_done.
  - compute_done.
  - compute_done.
  - intros p [= <-]. compute_done.
  - exists top, b'. split_and!; [exact E|exact Ha|]. rewrite Hq. compute_done.
Defined.




(** ** [OrderBook.apply_diff] and [OrderBook.apply_snapshot] on whole batches *)

Lemma batch_map_last (B1 B2 : Levels) (p q : Qc) :
  p ∉ B2.*1 → batch_map (B1 ++ (p, q) :: B2) !! p = Some q.
Proof.
  intros Hp. rewrite (batch_map_app B1), lookup_union.
  change ((p, q) :: B2) with ([(p, q)] ++ B2). rewrite batch_map_app, lookup_union.
  assert (batch_map B2 !! p = None) as ->.
  { apply eq_None_not_Some. by rewrite batch_map_dom. }
  change (batch_map [(p, q)]) with (<[p := q]> (∅ : gmap Qc Qc)).
  rewrite lookup_insert_eq. by destruct (batch_map B1 !! p).
Qed.

Lemma upserts_untouched (B : Levels) (m : gmap Qc Qc) (p : Qc) :
  p ∉ B.*1 → foldl (λ m '(p, q), upsert_map m p q) m B !! p = m !! p.
Proof.
  intros Hp. rewrite foldl_upsert_lookup.
  assert (batch_map B !! p = None) as ->; [|done].
  apply eq_None_not_Some. by rewrite batch_map_dom.
Qed.

Lemma upserts_last (B1 B2 : Levels) (m : gmap Qc Qc) (p q : Qc) :
  p ∉ B2.*1 →
  foldl (λ m '(p, q), upsert_map m p q) m (B1 ++ (p, q) :: B2) !! p
  = if decide (0 < q) then Some q else None.
Proof.
  intros Hp. rewrite foldl_upsert_lookup, batch_map_last by done.
  destruct (leb q 0) eqn:Hq.
  - apply leb_true in Hq. rewrite decide_False; [done|]. by apply Qcle_ngt.
  - apply leb_false in Hq. by rewrite decide_True.
Qed.

(** [apply_diff] on a book that satisfies the invariant returns normally
    and keeps the invariant.  On each side, a price the batch does not
    mention keeps its level, and a price the batch mentions ends with the
    quantity of its last entry in the batch, or with no level when that
    quantity is not positive. *)
Theorem apply_diff_last_entry_wins (Bb Ba : Levels) (b : OrderBook) :
  book_ok b →
  ∃ b', apply_diff Bb Ba b = (Return (), b') ∧ book_ok b' ∧
    (∀ p, p ∉ Bb.*1 → qty (bids b') !! p = qty (bids b) !! p) ∧
    (∀ p, p ∉ Ba.*1 → qty (asks b') !! p = qty (asks b) !! p) ∧
    (∀ B1 B2 p q, Bb = B1 ++ (p, q) :: B2 → p ∉ B2.*1 →
       qty (bids b') !! p = if decide (0 < q) then Some q else None) ∧
    (∀ B1 B2 p q, Ba = B1 ++ (p, q) :: B2 → p ∉ B2.*1 →
       qty (asks b') !! p = if decide (0 < q) then Some q else None).
Proof.
  intros Hok. destruct (apply_diff_ok Bb Ba b Hok) as (b' & E & Hok' & Hqb & Hqa).
  exists b'. split_and!; [done|done| | | |].
  - intros p Hp. rewrite Hqb. by apply upserts_untouched.
  - intros p Hp. rewrite Hqa. by apply upserts_untouched.
  - intros B1 B2 p q -> Hp. rewrite Hqb. by apply upserts_last.
  - intros B1 B2 p q -> Hp. rewrite Hqa. by apply upserts_last.
Qed.

Lemma apply_diff_last_entry_wins_witness :
  ∃ b', apply_diff [] [(dec 100 1, dec 7 1); (dec 101 1, 0); (dec 100 1, dec 9 1)]
          crossing_example = (Return (), b') ∧
        qty (asks b') !! dec 100 1 = Some (dec 9 1) ∧ qty (asks b') !! dec 101 1 = None.
Proof.
  destruct (apply_diff_last_entry_wins []
              [(dec 100 1, dec 7 1); (dec 101 1, 0); (dec 100 1, dec 9 1)] crossing_example)
    as (b' & E & _ & _ & _ & _ & Hlast); [compute_done|].
  exists b'. split_and!; [exact E| |].
  - rewrite (Hlast [(dec 100 1, dec 7 1); (dec 101 1, 0)] [] (dec 100 1) (dec 9 1));
      [compute_done | done | compute_done].
  - rewrite (Hlast [(dec 100 1, dec 7 1)] [(dec 100 1, dec 9 1)] (dec 101 1) 0);
      [compute_done | done | compute_done].
Defined.

(** Two diffs in a row on a book that satisfies the invariant are the same
    as one diff whose batches are the concatenation of theirs, side by
    side. *)
Theorem apply_diff_compose (Db1 Da1 Db2 Da2 : Levels) (b : OrderBook) :
  book_ok b →
  (apply_diff Db1 Da1 ;;; apply_diff Db2 Da2) b = apply_diff (Db1 ++ Db2) (Da1 ++ Da2) b.
Proof.
  intros Hok.
  destruct (apply_diff_ok Db1 Da1 b Hok) as (b1 & E1 & Hok1 & Hb1 & Ha1).
  destruct (apply_diff_ok Db2 Da2 b1 Hok1) as (b2 & E2 & Hok2 & Hb2 & Ha2).
  destruct (apply_diff_ok (Db1 ++ Db2) (Da1 ++ Da2) b Hok) as (b3 & E3 & Hok3 & Hb3 & Ha3).
  unfold bind. rewrite E1, E2, E3. f_equal.
  apply book_ok_ext; [done|done| |].
  - by rewrite Hb2, Hb1, Hb3, foldl_app.
  - by rewrite Ha2, Ha1, Ha3, foldl_app.
Qed.

Lemma apply_diff_compose_witness :
  (apply_diff [(dec 99 1, dec 1 1)] [(dec 100 1, 0)] ;;;
   apply_diff [(dec 99 1, dec 2 1)] [(dec 100 1, dec 4 1)]) crossing_example
  = apply_diff ([(dec 99 1, dec 1 1)] ++ [(dec 99 1, dec 2 1)])
               ([(dec 100 1, 0)] ++ [(dec 100 1, dec 4 1)]) crossing_example.
Proof. apply apply_diff_compose. compute_done. Defined.

Lemma levels_fst (sb : SideBook) : (levels sb).*1 = prices sb.
Proof.
  unfold levels. rewrite <-list_fmap_compose.
  induction (prices sb) as [|x xs IH]; [done|]. cbn. by rewrite IH.
Qed.

Lemma upserts_of_levels (sb : SideBook) :
  side_ok sb → foldl (λ m '(p, q), upsert_map m p q) ∅ (levels sb) = qty sb.
Proof.
  intros Hok. apply map_eq. intros p.
  rewrite foldl_upsert_lookup, lookup_empty.
  assert (NoDup (levels sb).*1) as Hnd.
  { rewrite levels_fst. by eapply sorted_NoDup, ok_sorted. }
  rewrite batch_map_NoDup by done.
  destruct (list_to_map (levels sb) !! p) as [v|] eqn:Hv.
  - apply elem_of_list_to_map in Hv; [|done].
    apply (levels_elem sb p v Hok) in Hv.
    assert (leb v 0 = false) as -> by (by eapply leb_false, (ok_pos sb Hok)).
    done.
  - destruct (qty sb !! p) as [v|] eqn:Hq; [|done].
    apply (levels_elem sb p v Hok), elem_of_list_to_map in Hq; [|done]. congruence.
Qed.

(** A book that satisfies the invariant is rebuilt exactly by a snapshot
    of its own levels, from any starting book; when neither side is deeper
    than ten levels, those are the levels [top10] returns. *)
Theorem apply_snapshot_of_own_levels (b b0 : OrderBook) :
  book_ok b →
  apply_snapshot (levels (bids b)) (levels (asks b)) b0 = (Return (), b) ∧
  ((length (prices (bids b)) ≤ 10)%nat → (length (prices (asks b)) ≤ 10)%nat →
   top10 b = Return (mkTop (levels (bids b)) (levels (asks b)))).
Proof.
  intros Hok. split.
  - destruct (apply_snapshot_ok (levels (bids b)) (levels (asks b)) b0)
      as (b' & E & Hok' & Hb & Ha).
    rewrite E. f_equal. pose proof Hok as (Hob & Hoa & _).
    apply book_ok_ext; [done|done| |].
    + by rewrite Hb, upserts_of_levels.
    + by rewrite Ha, upserts_of_levels.
  - intros Hlb Hla. rewrite top10_ok by done.
    rewrite !take_ge; [done| |]; unfold levels; by rewrite length_fmap.
Qed.

Lemma apply_snapshot_of_own_levels_witness :
  apply_snapshot (levels (bids crossing_example)) (levels (asks crossing_example)) new_book
  = (Return (), crossing_example).
Proof. apply apply_snapshot_of_own_levels. compute_done. Defined.

(** ** [OrderBookEngine.build_until]: what the replay ignores and keeps *)

(** The replay loop ignores the rows of other symbols, and ignores every
    row that follows the first row of the symbol whose timestamp reaches the
    horizon. *)
Theorem replay_ignores :
  (∀ symbol h file seen b,
     replay symbol h file seen b = replay symbol h (qualifying symbol file) seen b) ∧
  (∀ symbol h f1 r f2 seen b,
     row_symbol r = symbol → h ≤ row_time r →
     replay symbol h (f1 ++ r :: f2) seen b = replay symbol h (f1 ++ [r]) seen b).
Proof.
  split.
  - intros symbol h file. induction file as [|r file IH]; intros seen b; [done|].
    unfold qualifying in *. rewrite filter_cons.
    destruct (decide (row_symbol r = symbol)) as [Hs|Hs].
    + cbn [replay]. rewrite bool_decide_eq_false_2 by (by intros ?).
      unfold bind. destruct (if negb seen then _ else _) as [[[]|ex|] b1]; [|done|done].
      destruct (leb h (row_time r)); [done|]. apply IH.
    + cbn [replay]. rewrite bool_decide_eq_true_2 by done. apply IH.
  - intros symbol h f1 r f2 seen b Hs Hh.
    revert seen b. induction f1 as [|r1 f1 IH]; intros seen b.
    + cbn [app replay]. rewrite bool_decide_eq_false_2 by (by intros ?).
      by rewrite (proj2 (leb_true h (row_time r)) Hh).
    + cbn [app replay]. case_bool_decide; [apply IH|].
      unfold bind. destruct (if negb seen then _ else _) as [[[]|ex|] b1]; [|done|done].
      destruct (leb h (row_time r1)); [done|]. apply IH.
Qed.

Lemma replay_ignores_witness :
  replay "BTC/USD" (dec 4 1)
    ([mkRow "BTC/USD" (dec 1 1) [] [(dec 101 1, dec 1 1)]] ++
     mkRow "BTC/USD" (dec 5 1) [(dec 99 1, dec 1 1)] [] ::
     [mkRow "BTC/USD" (dec 6 1) [(dec 99 1, 0)] []]) false new_book
  = replay "BTC/USD" (dec 4 1)
    ([mkRow "BTC/USD" (dec 1 1) [] [(dec 101 1, dec 1 1)]] ++
     [mkRow "BTC/USD" (dec 5 1) [(dec 99 1, dec 1 1)] []]) false new_book.
Proof. apply (proj2 replay_ignores); compute_done. Defined.

Lemma applied_until_all (h : Qc) (rows : list Row) :
  Forall (λ r, row_time r < h) rows → applied_until h rows = rows.
Proof.
  induction 1 as [|r rows Hr _ IH]; [done|].
  by rewrite applied_until_later, IH.
Qed.

Lemma apply_snapshot_forgets (Bb Ba : Levels) (b1 b2 : OrderBook) :
  apply_snapshot Bb Ba b1 = apply_snapshot Bb Ba b2.
Proof. done. Qed.

Lemma replay_spec_forgets (rows : list Row) (b1 b2 : OrderBook) :
  rows ≠ [] → replay_spec rows b1 = replay_spec rows b2.
Proof.
  destruct rows as [|r rows]; [done|]. intros _. cbn [replay_spec]. unfold bind.
  by rewrite (apply_snapshot_forgets _ _ b1 b2).
Qed.

Lemma build_until_registered file symbol h (e : Engine) (l : loc) :
  books e !! symbol = Some l →
  build_until file symbol h e
  = (let '(r, b') := (replay_spec (applied_until h (qualifying symbol file)) ;;; reads top10)
                       (deref e l) in
     (r, mkEngine (books e) (<[l := b']> (heap e)))).
Proof.
  intros Hl. unfold build_until, bind at 1, _book. rewrite Hl.
  unfold on_book, bind. by rewrite replay_refines.
Qed.

(** With a horizon beyond every timestamp of the symbol, [build_until]
    applies the whole stream of the symbol: its first record as a snapshot
    and all the others as diffs. *)
Theorem build_until_whole_stream (file : list Row) (symbol : string) (h : Qc) (e : Engine) :
  (∀ r, r ∈ file → row_symbol r = symbol → row_time r < h) →
  ∃ l b' e',
    replay_spec (qualifying symbol file) (book_before e symbol) = (Return (), b') ∧
    build_until file symbol h e = (top10 b', e') ∧
    books e' !! symbol = Some l ∧ heap e' !! l = Some b'.
Proof.
  intros Hall.
  destruct (build_until_refines file symbol h e) as (l & b' & e' & Er & E & Hl & Hh & _).
  exists l, b', e'. split_and!; [|done|done|done].
  rewrite applied_until_all in Er; [done|].
  apply Forall_forall. intros r [Hs Hin]%list_elem_of_filter. by apply Hall.
Qed.

Lemma build_until_whole_stream_witness :
  ∃ l b' e',
    build_until [mkRow "BTC/USD" (dec 1 1) [] [(dec 101 1, dec 1 1)];
                 mkRow "BTC/USD" (dec 2 1) [(dec 99 1, dec 1 1)] []]
                "BTC/USD" (dec 100 1) new_engine = (top10 b', e') ∧
    books e' !! "BTC/USD"%string = Some l ∧ heap e' !! l = Some b'.
Proof.
  destruct (build_until_whole_stream
              [mkRow "BTC/USD" (dec 1 1) [] [(dec 101 1, dec 1 1)];
               mkRow "BTC/USD" (dec 2 1) [(dec 99 1, dec 1 1)] []]
              "BTC/USD" (dec 100 1) new_engine) as (l & b' & e' & _ & E & Hl & Hh).
  - intros r Hr _. repeat (apply elem_of_cons in Hr as [->|Hr]); [compute_done..|].
    by apply elem_of_nil in Hr.
  - by exists l, b', e'.
Defined.

(** [build_until] is idempotent: running it again with the same rows,
    symbol and horizon returns the same result and leaves the engine
    exactly as the first run left it. *)
Theorem build_until_idempotent (file : list Row) (symbol : string) (h : Qc) (e : Engine) :
  build_until file symbol h (build_until file symbol h e).2 = build_until file symbol h e.
Proof.
  destruct (build_until_refines file symbol h e) as (l & b' & e' & Er & E & Hl & Hh & _).
  rewrite E. cbn [snd]. rewrite (build_until_registered _ _ _ e' l Hl).
  unfold deref. rewrite Hh. cbn [default].
  assert (replay_spec (applied_until h (qualifying symbol file)) b' = (Return (), b')) as Er'.
  { destruct (applied_until h (qualifying symbol file)) as [|r rows] eqn:Hrows.
    - cbn in Er |- *. unfold ret in *. congruence.
    - rewrite <-Er. by apply replay_spec_forgets. }
  unfold bind, reads, id. cbv beta. rewrite Er'. f_equal.
  destruct e' as [bk hp]. cbn in *. f_equal. by apply insert_id.
Qed.

Lemma engine_ok_unfold (e : Engine) :
  engine_ok e ↔
  (∀ s l, books e !! s = Some l → is_Some (heap e !! l)) ∧
  (∀ s1 l1 s2 l2, books e !! s1 = Some l1 → books e !! s2 = Some l2 → l1 = l2 → s1 = s2).
Proof.
  unfold engine_ok, map_Forall. split; intros [H1 H2]; (split; [done|]).
  - intros s1 l1 s2 l2 E1 E2. by apply (H2 s1 l1 E1 s2 l2 E2).
  - intros s1 l1 E1 s2 l2 E2. by apply (H2 s1 l1 s2 l2).
Qed.

Lemma on_registered_book_frame {A} (symbol : string) (m : M OrderBook A) (e : Engine) :
  engine_ok e →
  ∃ r e', (l <~ _book symbol ;; on_book l m) e = (r, e') ∧ engine_ok e' ∧
    ∀ s' l', s' ≠ symbol → books e !! s' = Some l' →
             books e' !! s' = Some l' ∧ heap e' !! l' = heap e !! l'.
Proof.
  rewrite engine_ok_unfold. intros [Halloc Hinj].
  unfold bind, _book, on_book. destruct (books e !! symbol) as [l|] eqn:Hl.
  - destruct (m (deref e l)) as [r b']. eexists _, _. split; [done|].
    rewrite engine_ok_unfold. cbn. split_and!.
    + intros s l0 Hs. rewrite lookup_insert. case_decide; [by eauto|by eapply Halloc].
    + done.
    + intros s' l' Hne Hs'. split; [done|]. apply lookup_insert_ne.
      intros <-. apply Hne. by eapply Hinj.
  - set (l := fresh (dom (heap e))).
    assert (heap e !! l = None) as Hfresh.
    { apply not_elem_of_dom. apply is_fresh. }
    destruct (m _) as [r b']. eexists _, _. split; [done|].
    rewrite engine_ok_unfold. cbn. split_and!.
    + intros s l0 Hs. rewrite !lookup_insert.
      repeat case_decide; eauto. apply lookup_insert_Some in Hs as [[_ <-]|[_ Hs]]; [done|].
      by eapply Halloc.
    + intros s1 l1 s2 l2 H1 H2 <-.
      apply lookup_insert_Some in H1 as [[<- <-]|[Hn1 H1]];
        apply lookup_insert_Some in H2 as [[<- H2']|[Hn2 H2]]; try done.
      * apply Halloc in H2 as [? ?]. congruence.
      * subst l1. apply Halloc in H1 as [? ?]. congruence.
      * by eapply Hinj.
    + intros s' l' Hne Hs'. split; [by rewrite lookup_insert_ne|].
      assert (l ≠ l') as Hll by (intros <-; apply Halloc in Hs' as [? ?]; congruence).
      by rewrite !lookup_insert_ne.
Qed.

(** The registry invariant holds for a new engine and is kept by
    [build_until]; under it, [build_until] for one symbol leaves the
    registry entry and the book of every other symbol unchanged. *)
Theorem build_until_frame :
  engine_ok new_engine ∧
  ∀ file symbol h e,
    engine_ok e →
    ∃ r e', build_until file symbol h e = (r, e') ∧ engine_ok e' ∧
      ∀ s' l', s' ≠ symbol → books e !! s' = Some l' →
               books e' !! s' = Some l' ∧ heap e' !! l' = heap e !! l'.
Proof.
  split.
  - apply engine_ok_unfold. split; intros *; cbn; by rewrite lookup_empty.
  - intros file symbol h e Hok. unfold build_until.
    by apply on_registered_book_frame.
Qed.

Lemma build_until_frame_witness :
  let eth := [mkRow "ETH/USD" (dec 1 1) [(dec 9 1, dec 1 1)] [(dec 11 1, dec 1 1)]] in
  let btc := [mkRow "BTC/USD" (dec 1 1) [(dec 99 1, dec 1 1)] [(dec 101 1, dec 1 1)]] in
  let e := (build_until eth "ETH/USD" (dec 1 1) new_engine).2 in
  engine_ok e ∧
  ∃ l', books e !! "ETH/USD"%string = Some l' ∧
        heap (build_until btc "BTC/USD" (dec 1 1) e).2 !! l' = heap e !! l'.
Proof.
  cbn zeta.
  set (e := (build_until [mkRow "ETH/USD" (dec 1 1) [(dec 9 1, dec 1 1)] [(dec 11 1, dec 1 1)]]
               "ETH/USD" (dec 1 1) new_engine).2).
  assert (engine_ok e) as Hok by compute_done.
  split; [exact Hok|].
  assert (∃ l', books e !! "ETH/USD"%string = Some l') as [l' Hl'].
  { exists (fresh (∅ : gset loc)). compute_done. }
  exists l'. split; [exact Hl'|].
  destruct (proj2 build_until_frame
              [mkRow "BTC/USD" (dec 1 1) [(dec 99 1, dec 1 1)] [(dec 101 1, dec 1 1)]]
              "BTC/USD" (dec 1 1) e Hok) as (r & e' & E & _ & Hframe).
  rewrite E. cbn [snd]. apply (Hframe "ETH/USD"%string l'); [discriminate|exact Hl'].
Defined.
